(** * react-voice-recorder-pro: a shallow embedding of the hooks and utilities

    The library is a set of React hooks over browser APIs.  Each hook is
    embedded as a record of its state cells ([useState] values and [useRef]
    slots) together with one function per callback, effect body or platform
    event handler; the platform (clock, MediaRecorder engine, object-URL
    registry, getUserMedia outcome) is passed in explicitly.

    - [Utils]        src/utils/index.ts        (formatDuration, normalizeAudioLevel)
    - [Timer]        hooks/useRecordingTimer   (effect, tick, reset, formatTime)
    - [Meter]        hooks/useAudioMeter       (tick: RMS of the waveform buffer)
    - [Microphone]   hooks/useMicrophone       (enable / disable)
    - [Recorder]     hooks/useMediaRecorder    (start / pause / resume / stop)
    - [Orchestrator] hooks/useVoiceRecorder    (error merging, object URLs)

    JavaScript numbers that hold integers (timestamps, second counts, byte
    samples) are modelled as [Z]: below 2^53 such numbers are exact, and
    [Math.floor(a / b)] and [a % b] on them are the integer quotient and
    remainder.  Levels are modelled as real numbers, with the one non-real
    value the code can produce (NaN) made explicit. *)

From Stdlib Require Import ZArith List String Ascii Bool Lia.
From Stdlib Require Import DecimalString DecimalPos.
From Stdlib Require Import Reals Lra Permutation.
Import ListNotations.

(* ===================================================================== *)
(** * JavaScript string helpers used by the formatting code *)
(* ===================================================================== *)

Module Js.

Local Open Scope Z_scope.
Local Open Scope string_scope.

(** [Number.MAX_SAFE_INTEGER]: up to this magnitude a number that holds an
    integer holds it exactly, and the model on [Z] is the computation on
    doubles. *)
Definition MAX_SAFE_INTEGER : Z := 2 ^ 53 - 1.

(** [Number.prototype.toString()] on an integer-valued number: decimal
    digits, with a leading minus sign for negative values.  (Exact for safe
    integers; from 2^53 on a double prints other digits.) *)
Definition toString (n : Z) : string :=
  NilZero.string_of_int (Z.to_int n).

(** [s.repeat(k)] for a one-character string. *)
Fixpoint repeat_char (c : ascii) (k : nat) : string :=
  match k with
  | O => EmptyString
  | S k' => String c (repeat_char c k')
  end.

(** [s.padStart(targetLength, c)] for a one-character pad string: a string
    that is already long enough is returned unchanged (never truncated). *)
Definition padStart (targetLength : nat) (c : ascii) (s : string) : string :=
  repeat_char c (targetLength - String.length s) ++ s.

(** [x.toString().padStart(2, '0')], the idiom both formatters use. *)
Definition pad2 (n : Z) : string := padStart 2 "0"%char (toString n).

(** The decimal digit character of [d] (for [0 <= d <= 9]). *)
Definition digit (d : Z) : ascii := ascii_of_nat (48 + Z.to_nat d).

(** The two-digit rendering of a number below 100, digit by digit. *)
Definition two_digits (n : Z) : string :=
  String (digit (n / 10)) (String (digit (n mod 10)) EmptyString).

(** JavaScript truthiness of a [string | null] value: [null] and the empty
    string are falsy. *)
Definition truthy (v : option string) : bool :=
  match v with
  | Some s => negb (String.eqb s "")
  | None => false
  end.

(** [a || b] on [string | null] operands. *)
Definition or (a b : option string) : option string :=
  if truthy a then a else b.

End Js.

(* ===================================================================== *)
(** * src/utils/index.ts *)
(* ===================================================================== *)

Module Utils.

Local Open Scope Z_scope.
Local Open Scope string_scope.

(** [formatDuration(seconds)], for an integer-valued argument of magnitude
    at most [Js.MAX_SAFE_INTEGER] (beyond it the code's doubles round, and
    this definition no longer describes them).
    [Math.floor(x / k)] is [Z.div] (floor division for positive [k]);
    JavaScript's [%] takes the sign of the dividend, which is [Z.rem]. *)
Definition formatDuration (seconds : Z) : string :=
  let hours := seconds / 3600 in
  let minutes := (Z.rem seconds 3600) / 60 in
  let secs := Z.rem seconds 60 in
  if (0 <? hours)%Z
  then Js.toString hours ++ ":" ++ Js.pad2 minutes ++ ":" ++ Js.pad2 secs
  else Js.toString minutes ++ ":" ++ Js.pad2 secs.

Local Open Scope R_scope.

(** [normalizeAudioLevel(level, minLevel)] on real-valued arguments.
    [Math.min], [Math.max] and [<] are exact on numbers, so the real-number
    reading loses nothing for finite inputs. *)
Definition normalizeAudioLevel (level minLevel : R) : R :=
  let normalized := Rmax 0 (Rmin 1 level) in
  if Rlt_dec normalized minLevel then 0 else normalized.

(** The default threshold of the optional second parameter, the literal
    [0.01]. *)
Definition DEFAULT_MIN_LEVEL : R := 1 / 100.

(** [normalizeAudioLevel(level)] with [minLevel] left out. *)
Definition normalizeAudioLevel_default (level : R) : R :=
  normalizeAudioLevel level DEFAULT_MIN_LEVEL.

End Utils.

(* ===================================================================== *)
(** * hooks/useRecordingTimer *)
(* ===================================================================== *)

Module Timer.

Local Open Scope Z_scope.

(** [formatTime(seconds)]: every field goes through [padStart(2, '0')].
    As for [formatDuration], the argument is an integer of magnitude at most
    [Js.MAX_SAFE_INTEGER]. *)
Definition formatTime (seconds : Z) : string :=
  let hours := seconds / 3600 in
  let mins := (Z.rem seconds 3600) / 60 in
  let secs := Z.rem seconds 60 in
  (Js.pad2 hours ++ ":" ++ Js.pad2 mins ++ ":" ++ Js.pad2 secs)%string.

(** The hook's cells: the [elapsedTime] state and the four refs.  The
    interval handle only matters as armed / not armed. *)
Record State : Type := mkState {
  elapsedTime : Z;                 (* useState(0), whole seconds *)
  intervalRef : bool;              (* an interval is scheduled *)
  startTimeRef : option Z;         (* Date.now() at first activation *)
  pausedTimeRef : Z;               (* accumulated pause, milliseconds *)
  pauseStartTimeRef : option Z     (* Date.now() when the pause began *)
}.

Definition initial : State := mkState 0 false None 0 None.

(** The period passed to [setInterval]. *)
Definition TICK_MS : Z := 100.

Definition clearIntervalRef (st : State) : State :=
  mkState (elapsedTime st) false (startTimeRef st) (pausedTimeRef st)
          (pauseStartTimeRef st).

(** The effect's cleanup, run before the effect body re-runs. *)
Definition cleanup (st : State) : State := clearIntervalRef st.

(** The effect body for the dependency values [(isRecording, isPaused)],
    with [now] the value [Date.now()] returns while it runs. *)
Definition effect (isRecording isPaused : bool) (now : Z) (st : State) : State :=
  if isRecording && negb isPaused then
    match startTimeRef st with
    | None =>
        mkState (elapsedTime st) true (Some now) (pausedTimeRef st)
                (pauseStartTimeRef st)
    | Some start =>
        match pauseStartTimeRef st with
        | Some pauseStart =>
            let pauseDuration := now - pauseStart in
            mkState (elapsedTime st) true (Some start)
                    (pausedTimeRef st + pauseDuration) None
        | None =>
            mkState (elapsedTime st) true (Some start) (pausedTimeRef st)
                    (pauseStartTimeRef st)
        end
    end
  else if isPaused then
    let st' := clearIntervalRef st in
    match pauseStartTimeRef st' with
    | None =>
        mkState (elapsedTime st') false (startTimeRef st') (pausedTimeRef st')
                (Some now)
    | Some _ => st'
    end
  else clearIntervalRef st.

(** One firing of the interval callback at clock value [now].  The guard
    [if (startTimeRef.current)] is a truthiness test: [null] and [0] fail it. *)
Definition tick (now : Z) (st : State) : State :=
  if intervalRef st then
    match startTimeRef st with
    | Some start =>
        if start =? 0 then st
        else
          let totalElapsed := now - start in
          let actualElapsed := (totalElapsed - pausedTimeRef st) / 1000 in
          mkState actualElapsed (intervalRef st) (startTimeRef st)
                  (pausedTimeRef st) (pauseStartTimeRef st)
    | None => st
    end
  else st.

(** [reset()]: the interval handle is not touched. *)
Definition reset (st : State) : State :=
  mkState 0 (intervalRef st) None 0 None.

(** What can happen to a mounted timer: the dependencies change (cleanup,
    then the effect body), the interval fires, or [reset] is called. *)
Inductive Event : Type :=
| Render (isRecording isPaused : bool) (now : Z)
| Tick (now : Z)
| Reset.

Definition step (st : State) (e : Event) : State :=
  match e with
  | Render r p now => effect r p now (cleanup st)
  | Tick now => tick now st
  | Reset => reset st
  end.

Definition run (st : State) (es : list Event) : State :=
  fold_left step es st.

(** ** Sessions

    A session in the sense of the timer's state machine (Idle, Running,
    Paused): one activation, then pauses and resumes in alternation, with
    interval firings in between. *)
Inductive SessionEvent : Type :=
| Pause (at_ : Z)
| Resume (at_ : Z)
| Fire (at_ : Z).

Record Session : Type := mkSession {
  activatedAt : Z;
  history : list SessionEvent
}.

Definition toEvent (e : SessionEvent) : Event :=
  match e with
  | Pause t => Render true true t
  | Resume t => Render true false t
  | Fire t => Tick t
  end.

Definition events (s : Session) : list Event :=
  Render true false (activatedAt s) :: map toEvent (history s).

(** Pauses and resumes alternate, starting from Running; [paused] tells
    whether a pause is open at the start of the list. *)
Fixpoint alternates (paused : bool) (h : list SessionEvent) : bool :=
  match h with
  | [] => true
  | Pause _ :: h' => negb paused && alternates true h'
  | Resume _ :: h' => paused && alternates false h'
  | Fire _ :: h' => alternates paused h'
  end.

(** Whether the session ends with a pause still open. *)
Fixpoint endsPaused (paused : bool) (h : list SessionEvent) : bool :=
  match h with
  | [] => paused
  | Pause _ :: h' => endsPaused true h'
  | Resume _ :: h' => endsPaused false h'
  | Fire _ :: h' => endsPaused paused h'
  end.

(** The sum of the durations of the completed pauses: each [Resume r] that
    closes the pause opened at [p] contributes [r - p]. *)
Fixpoint completedPause (open : option Z) (h : list SessionEvent) : Z :=
  match h with
  | [] => 0
  | Pause p :: h' => completedPause (Some p) h'
  | Resume r :: h' =>
      match open with
      | Some p => (r - p) + completedPause None h'
      | None => completedPause None h'
      end
  | Fire _ :: h' => completedPause open h'
  end.

Definition wellFormed (s : Session) : Prop :=
  0 < activatedAt s /\ alternates false (history s) = true.

End Timer.


(* ===================================================================== *)
(** * hooks/useAudioMeter *)
(* ===================================================================== *)

Module Meter.

Local Open Scope R_scope.

(** A JavaScript number as the meter produces it: a real value, or NaN
    (the result of [0 / 0]). *)
Inductive number : Type :=
| Num (r : R)
| NaN.

(** The hook's cells.  The refs only matter as set / not set. *)
Record State : Type := mkState {
  level : number;        (* useState(0) *)
  rafRef : bool;         (* a frame callback is scheduled *)
  analyserRef : bool;    (* an AnalyserNode is connected *)
  sourceRef : bool       (* a MediaStreamAudioSourceNode is connected *)
}.

Definition initial : State := mkState (Num 0) false false false.

(** [cleanup()]: cancel the frame, disconnect, reset the level to 0. *)
Definition cleanup (_ : State) : State := mkState (Num 0) false false false.

(** The platform's [AnalyserNode]: [fftSize] is a power of two between 32
    and 32768 (the setter throws otherwise), and [frequencyBinCount], the
    length of the hook's [Uint8Array], is half of it. *)
Definition frequencyBinCount (fftSize : nat) : nat := Nat.div fftSize 2.

(** The effect body for a non-null context and stream: dispose the previous
    graph, build a new one, schedule the first frame. *)
Definition effect (st : State) : State :=
  let st' := cleanup st in
  mkState (level st') true true true.

(** [const v = (data[i] - 128) / 128] *)
Definition normalizedSample (d : Z) : R := (IZR d - 128) / 128.

(** The loop [for (i = 0; i < data.length; i++) sumSquares += v * v],
    started from [sumSquares = 0]. *)
Definition sumSquares (data : list Z) : R :=
  fold_left (fun acc d => acc + normalizedSample d * normalizedSample d) data 0.

(** [Math.sqrt(sumSquares / data.length)].  For an empty buffer the quotient
    is [0 / 0], so the result is NaN.  On byte samples the sum is computed
    without rounding (see [sumSquaresNumerator]); the division and the
    square root are correctly rounded and monotone, and 0 and 1 are exact, so
    bounds by 0 and 1 on the real value are bounds on the computed one. *)
Definition rms (data : list Z) : number :=
  match data with
  | [] => NaN
  | _ :: _ => Num (sqrt (sumSquares data / INR (List.length data)))
  end.

(** One frame: [data] is the buffer as [getByteTimeDomainData] filled it;
    the level is republished and the next frame scheduled. *)
Definition tick (data : list Z) (st : State) : State :=
  mkState (rms data) true (analyserRef st) (sourceRef st).

(** Samples as a [Uint8Array] can hold them. *)
Definition isByte (d : Z) : Prop := (0 <= d <= 255)%Z.

(** The integer numerator of [sumSquares]: every term is [k^2 / 16384] with
    [k = d - 128], so the running sum is a multiple of [2^-14]. *)
Definition sumSquaresNumerator (data : list Z) : Z :=
  fold_left (fun acc d => acc + (d - 128) * (d - 128))%Z data 0%Z.

End Meter.

(* ===================================================================== *)
(** * hooks/useMicrophone *)
(* ===================================================================== *)

Module Microphone.

Local Open Scope string_scope.

(** A value caught by [catch (err)]: what matters to the handler is whether
    it is a non-null object and, if so, its [name] property (a string when
    present). *)
Inductive Thrown : Type :=
| ThrownUndefined
| ThrownNull
| ThrownPrimitive (text : string)
| ThrownObject (name : option string).

(** A capture stream, identified by the order in which the platform
    handed it out. *)
Definition MediaStream : Type := nat.

Inductive PermissionState : Type :=
| granted | denied | prompt | unknown.

(** The outcome of [await navigator.mediaDevices.getUserMedia(...)]. *)
Inductive GetUserMedia : Type :=
| Fulfilled (nextStream : MediaStream)
| Rejected (err : Thrown).

Record State : Type := mkState {
  stream : option MediaStream;        (* useState(null) *)
  isEnabled : bool;                   (* useState(false) *)
  permission : PermissionState;       (* useState('unknown') *)
  error : option string;              (* useState(null) *)
  streamRef : option MediaStream;     (* useRef(null) *)
  stopped : list MediaStream          (* streams whose tracks were stopped *)
}.

Definition initial : State := mkState None false unknown None None [].

Definition MSG_GENERIC : string := "Microphone permission or device error".
Definition MSG_PERMISSION_DENIED : string :=
  "Permission denied. Please allow microphone in browser site settings.".
Definition MSG_NOT_FOUND : string := "Microphone device not found.".
Definition MSG_UNAVAILABLE : string :=
  "Another app is using the microphone or it is not accessible.".

(** The body of the [catch] block up to [setError]: the message chosen for
    the caught value. *)
Definition errorMessage (err : Thrown) : string :=
  match err with
  | ThrownObject (Some name) =>
      if (name =? "NotAllowedError") || (name =? "SecurityError")
      then MSG_PERMISSION_DENIED
      else if name =? "NotFoundError" then MSG_NOT_FOUND
      else if name =? "NotReadableError" then MSG_UNAVAILABLE
      else MSG_GENERIC
  | _ => MSG_GENERIC
  end.

(** The [try] block up to the [await]: clear the error and tear down an
    existing stream. *)
Definition beforeRequest (st : State) : State :=
  match streamRef st with
  | Some s =>
      mkState None false (permission st) None None (s :: stopped st)
  | None =>
      mkState (stream st) (isEnabled st) (permission st) None None (stopped st)
  end.

(** [enable()], given how the platform settles the request. *)
Definition enable (outcome : GetUserMedia) (st : State) : State :=
  let st1 := beforeRequest st in
  match outcome with
  | Fulfilled nextStream =>
      mkState (Some nextStream) true (permission st1) (error st1)
              (Some nextStream) (stopped st1)
  | Rejected err =>
      mkState (stream st1) false (permission st1) (Some (errorMessage err))
              (streamRef st1) (stopped st1)
  end.

(** [disable()] *)
Definition disable (st : State) : State :=
  mkState None false (permission st) (error st) None
          (match streamRef st with
           | Some s => s :: stopped st
           | None => stopped st
           end).

End Microphone.

(* ===================================================================== *)
(** * hooks/useMediaRecorder *)
(* ===================================================================== *)

Module Recorder.

(** A [Blob]: its bytes and its [type]. *)
Record Blob : Type := mkBlob {
  bytes : list Z;
  type : string
}.

Definition size (b : Blob) : nat := List.length (bytes b).

(** [new Blob(parts, { type })]: the parts' bytes, in order. *)
Definition newBlob (parts : list Blob) (type : string) : Blob :=
  mkBlob (List.concat (map bytes parts)) type.

(** [MediaRecorder.state] *)
Inductive RecordingState : Type :=
| inactive | recording | paused.

(** The engine's single [onstop] slot holds one of the two handlers the hook
    assigns to it: the one the effect installs, or the one [stop] installs,
    a closure over the [chunks] and [mimeType] of the render that created
    that [stop] callback. *)
Inductive StopHandler : Type :=
| SyncFlags
| ResolveWith (captured : list Blob) (mimeType : string).

Record MediaRecorder : Type := mkEngine {
  state : RecordingState;
  onstop : StopHandler;
  timeslice : option Z
}.

(** Methods of the engine the hook invokes. *)
Inductive EngineCall : Type :=
| CallStart (timeslice : Z)
| CallPause
| CallResume
| CallStop.

Record State : Type := mkState {
  isRecording : bool;                  (* useState(false) *)
  isPaused : bool;                     (* useState(false) *)
  chunks : list Blob;                  (* useState([]) *)
  error : option string;               (* useState(null) *)
  recorderRef : option MediaRecorder;  (* useRef(null) *)
  calls : list EngineCall              (* engine calls, most recent first *)
}.

Definition initial : State := mkState false false [] None None [].

(** [options?.mimeType || 'audio/webm'] *)
Definition mimeTypeOf (option_ : option string) : string :=
  match Js.or option_ (Some "audio/webm"%string) with
  | Some m => m
  | None => "audio/webm"%string
  end.

(** The effect body for a non-null stream whose engine construction
    succeeds: a fresh, idle engine with the effect's [onstop]. *)
Definition attach (st : State) : State :=
  mkState (isRecording st) (isPaused st) (chunks st) (error st)
          (Some (mkEngine inactive SyncFlags None)) (calls st).

(** The interval requested from the engine, [r.start(100)]. *)
Definition TIMESLICE_MS : Z := 100.

(** [start()]; [startThrows] tells whether the platform's [r.start] throws
    when it is invoked. *)
Definition start (startThrows : bool) (st : State) : State :=
  let cleared :=
    mkState (isRecording st) false [] None (recorderRef st) (calls st) in
  match recorderRef st with
  | None => cleared
  | Some r =>
      match state r with
      | inactive =>
          if startThrows then
            mkState (isRecording cleared) (isPaused cleared) (chunks cleared)
                    (Some "Recording start failed"%string) (Some r)
                    (CallStart TIMESLICE_MS :: calls st)
          else
            mkState (isRecording cleared) (isPaused cleared) (chunks cleared)
                    (error cleared)
                    (Some (mkEngine recording (onstop r) (Some TIMESLICE_MS)))
                    (CallStart TIMESLICE_MS :: calls st)
      | _ => cleared
      end
  end.

(** [pause()] *)
Definition pause (st : State) : State :=
  match recorderRef st with
  | Some r =>
      match state r with
      | recording =>
          mkState (isRecording st) (isPaused st) (chunks st) (error st)
                  (Some (mkEngine paused (onstop r) (timeslice r)))
                  (CallPause :: calls st)
      | _ => st
      end
  | None => st
  end.

(** [resume()] *)
Definition resume (st : State) : State :=
  match recorderRef st with
  | Some r =>
      match state r with
      | paused =>
          mkState (isRecording st) (isPaused st) (chunks st) (error st)
                  (Some (mkEngine recording (onstop r) (timeslice r)))
                  (CallResume :: calls st)
      | _ => st
      end
  | None => st
  end.

(** [reset()] *)
Definition reset (st : State) : State :=
  mkState (isRecording st) false [] (error st) (recorderRef st) (calls st).

(** ** Engine events *)

(** [rec.ondataavailable]: a chunk is kept when it is non-empty. *)
Definition onDataAvailable (data : Blob) (st : State) : State :=
  if (0 <? size data)%nat
  then mkState (isRecording st) (isPaused st) (chunks st ++ [data]) (error st)
               (recorderRef st) (calls st)
  else st.

Definition onStart (st : State) : State :=
  mkState true (isPaused st) (chunks st) (error st) (recorderRef st) (calls st).

Definition onPause (st : State) : State :=
  mkState (isRecording st) true (chunks st) (error st) (recorderRef st) (calls st).

Definition onResume (st : State) : State :=
  mkState (isRecording st) false (chunks st) (error st) (recorderRef st) (calls st).

Definition onError (st : State) : State :=
  mkState (isRecording st) (isPaused st) (chunks st) (Some "Recording error"%string)
          (recorderRef st) (calls st).

(** ** stop *)

(** The promise [stop] returns: settled by the executor itself, or left to
    the engine's stop event. *)
Inductive Promise : Type :=
| Resolved (value : option Blob)
| Pending.

(** [stop()] as created in a render whose state held [captured] chunks, up
    to the return of the promise executor.  The platform's [r.stop()] makes
    the engine inactive at once and delivers its events later. *)
Definition stop (captured : list Blob) (mimeType : string) (st : State)
  : State * Promise :=
  match recorderRef st with
  | None => (st, Resolved None)
  | Some r =>
      match state r with
      | inactive => (st, Resolved None)
      | _ =>
          (mkState (isRecording st) (isPaused st) (chunks st) (error st)
                   (Some (mkEngine inactive (ResolveWith captured mimeType)
                                   (timeslice r)))
                   (CallStop :: calls st),
           Pending)
      end
  end.

(** The engine's stop event, dispatched to whatever handler sits in
    [onstop]. *)
Definition fireStop (st : State) : State * Promise :=
  match recorderRef st with
  | Some r =>
      match onstop r with
      | SyncFlags =>
          (mkState false false (chunks st) (error st) (recorderRef st) (calls st),
           Pending)
      | ResolveWith captured mimeType =>
          (st, Resolved (Some (newBlob captured mimeType)))
      end
  | None => (st, Pending)
  end.

(** The task the platform queues when [r.stop()] is called on an active
    engine: a final [dataavailable] carrying the data gathered since the
    last delivery, then the stop event. *)
Definition stopTask (flushed : Blob) (st : State) : State * Promise :=
  fireStop (onDataAvailable flushed st).

(** Calling the [stop] of the latest render (its closure holds the current
    [chunks]) and letting the engine finish. *)
Definition stopAndSettle (mimeType : string) (flushed : Blob) (st : State)
  : State * Promise :=
  match stop (chunks st) mimeType st with
  | (st', Resolved v) => (st', Resolved v)
  | (st', Pending) => stopTask flushed st'
  end.

(** The engine is idle: absent, or inactive. *)
Definition idle (st : State) : bool :=
  match recorderRef st with
  | None => true
  | Some r => match state r with inactive => true | _ => false end
  end.

End Recorder.

(* ===================================================================== *)
(** * hooks/useVoiceRecorder *)
(* ===================================================================== *)

Module Orchestrator.

(** ** Error merging *)

(** The three values the merging effect depends on: the two sub-hooks'
    error fields and the facade's own [error] state. *)
Record Errors : Type := mkErrors {
  micError : option string;
  recorderError : option string;
  error : option string
}.

Definition noErrors : Errors := mkErrors None None None.

(** [micError || recorderError || error] ([||] associates to the left). *)
Definition combinedError (st : Errors) : option string :=
  Js.or (Js.or (micError st) (recorderError st)) (error st).

(** The effect body: [setError(combinedError)]. *)
Definition mergeEffect (st : Errors) : Errors :=
  mkErrors (micError st) (recorderError st) (combinedError st).

(** A change of one of the effect's dependencies: a sub-hook publishes a new
    error value, or the facade calls its own [setError] (start and stop
    failures, [setError(null)] in [startRecording] and [reset]). *)
Inductive ErrorEvent : Type :=
| MicrophoneError (value : option string)
| RecorderError (value : option string)
| LocalError (value : option string).

Definition write (st : Errors) (e : ErrorEvent) : Errors :=
  match e with
  | MicrophoneError v => mkErrors v (recorderError st) (error st)
  | RecorderError v => mkErrors (micError st) v (error st)
  | LocalError v => mkErrors (micError st) (recorderError st) v
  end.

(** One dependency update followed by the effect. *)
Definition errorStep (st : Errors) (e : ErrorEvent) : Errors :=
  mergeEffect (write st e).

Definition errorRun (st : Errors) (es : list ErrorEvent) : Errors :=
  fold_left errorStep es st.

(** ** Object URLs *)

(** An object URL, named by the order in which the platform minted it (the
    strings [URL.createObjectURL] returns are non-empty and never repeat). *)
Definition Url : Type := nat.

(** The identity of a [Blob] object ([useEffect] compares dependencies with
    [Object.is]). *)
Definition BlobRef : Type := nat.

(** Calls into the platform's URL registry. *)
Inductive UrlCall : Type :=
| CreateObjectURL (u : Url)
| RevokeObjectURL (u : Url).

Record Urls : Type := mkUrls {
  recordedBlob : option BlobRef;    (* useState(null) *)
  audioUrl : option Url;            (* useState(null) *)
  previousUrlRef : option Url;      (* useRef(null) *)
  nextUrl : Url;                    (* platform: the next URL to be minted *)
  registry : list UrlCall           (* platform calls, most recent first *)
}.

(** A mounted facade: the URL effect has run once with no blob. *)
Definition mounted : Urls := mkUrls None None None 0 [].

(** [if (previousUrlRef.current) URL.revokeObjectURL(previousUrlRef.current)] *)
Definition revokePrevious (st : Urls) : list UrlCall :=
  match previousUrlRef st with
  | Some u => RevokeObjectURL u :: registry st
  | None => registry st
  end.

(** The body of the effect on [recordedBlob]. *)
Definition urlEffect (st : Urls) : Urls :=
  match recordedBlob st with
  | Some _ =>
      let url := nextUrl st in
      mkUrls (recordedBlob st) (Some url) (Some url) (S (nextUrl st))
             (CreateObjectURL url :: revokePrevious st)
  | None =>
      mkUrls (recordedBlob st) None None (nextUrl st) (revokePrevious st)
  end.

Definition sameBlob (a b : option BlobRef) : bool :=
  match a, b with
  | Some x, Some y => Nat.eqb x y
  | None, None => true
  | _, _ => false
  end.

(** [setRecordedBlob(b)]: the effect runs when the reference changed. *)
Definition setRecordedBlob (b : option BlobRef) (st : Urls) : Urls :=
  if sameBlob b (recordedBlob st) then st
  else urlEffect (mkUrls b (audioUrl st) (previousUrlRef st) (nextUrl st)
                         (registry st)).

(** The facade's operations, as far as the recorded blob is concerned:
    [stopRecording] stores what the recorder's [stop] resolved with, [reset]
    and the facade's [disableMicrophone] store [null], the others leave the
    blob alone. *)
Inductive Operation : Type :=
| StopRecording (result : option BlobRef)
| ResetAll
| DisableMicrophone
| StartRecording
| PauseRecording
| ResumeRecording
| PlayPause.

Definition apply (st : Urls) (op : Operation) : Urls :=
  match op with
  | StopRecording result => setRecordedBlob result st
  | ResetAll | DisableMicrophone => setRecordedBlob None st
  | StartRecording | PauseRecording | ResumeRecording | PlayPause => st
  end.

Definition applyAll (st : Urls) (ops : list Operation) : Urls :=
  fold_left apply ops st.

(** The unmount cleanup: the ref is read, not cleared. *)
Definition unmount (st : Urls) : Urls :=
  mkUrls (recordedBlob st) (audioUrl st) (previousUrlRef st) (nextUrl st)
         (revokePrevious st).

(** The URLs that are live after a history of registry calls (most recent
    first): minted and not revoked since. *)
Fixpoint liveUrls (calls : list UrlCall) : list Url :=
  match calls with
  | [] => []
  | CreateObjectURL u :: earlier => u :: liveUrls earlier
  | RevokeObjectURL u :: earlier => List.remove Nat.eq_dec u (liveUrls earlier)
  end.

(** At every point of the history at most one URL was live. *)
Fixpoint atMostOneLive (calls : list UrlCall) : Prop :=
  match calls with
  | [] => True
  | _ :: earlier =>
      (List.length (liveUrls calls) <= 1)%nat /\ atMostOneLive earlier
  end.

Definition revocations (u : Url) (calls : list UrlCall) : nat :=
  List.length (filter (fun c => match c with
                                | RevokeObjectURL v => Nat.eqb u v
                                | CreateObjectURL _ => false
                                end) calls).

Definition minted (u : Url) (calls : list UrlCall) : Prop :=
  In (CreateObjectURL u) calls.

End Orchestrator.

(* ===================================================================== *)
(** * hooks/useMicrophone: the life of the capture streams *)
(* ===================================================================== *)

Module MicrophoneLife.

Import Microphone.

(** The part of [enable] after the [await]: the continuation that runs when
    the platform settles the request. *)
Definition afterRequest (outcome : GetUserMedia) (st : State) : State :=
  match outcome with
  | Fulfilled nextStream =>
      mkState (Some nextStream) true (permission st) (error st)
              (Some nextStream) (stopped st)
  | Rejected err =>
      mkState (stream st) false (permission st) (Some (errorMessage err))
              (streamRef st) (stopped st)
  end.

(** The unmount cleanup: the tracks of the stream in the ref are stopped;
    the ref itself is left as it is. *)
Definition unmount (st : State) : State :=
  mkState (stream st) (isEnabled st) (permission st) (error st) (streamRef st)
          (match streamRef st with
           | Some s => s :: stopped st
           | None => stopped st
           end).

(** Calls made one after the other: each [enable] has settled before the
    next call is made. *)
Inductive Call : Type :=
| Enable (outcome : GetUserMedia)
| Disable.

Definition call (st : State) (c : Call) : State :=
  match c with
  | Enable outcome => enable outcome st
  | Disable => disable st
  end.

Definition calls (st : State) (cs : list Call) : State :=
  fold_left call cs st.

(** The streams the platform handed out during a sequence of calls. *)
Fixpoint acquired (cs : list Call) : list MediaStream :=
  match cs with
  | [] => []
  | Enable (Fulfilled s) :: rest => s :: acquired rest
  | _ :: rest => acquired rest
  end.

(** What may happen when calls overlap: the synchronous start of an
    [enable], its continuation, or a [disable]. *)
Inductive Step : Type :=
| Begin
| Settle (outcome : GetUserMedia)
| DisableNow.

Definition step (st : State) (s : Step) : State :=
  match s with
  | Begin => beforeRequest st
  | Settle outcome => afterRequest outcome st
  | DisableNow => disable st
  end.

Definition steps (st : State) (ss : list Step) : State :=
  fold_left step ss st.

End MicrophoneLife.

(* ===================================================================== *)
(** * hooks/useMediaRecorder: operations and engine events together *)
(* ===================================================================== *)

Module RecorderOps.

Import Recorder.

(** Everything that can happen to a recorder whose engine is attached: a
    call of one of the hook's functions, or an event of the engine. *)
Inductive Op : Type :=
| DoStart (startThrows : bool)
| DoPause
| DoResume
| DoStop (captured : list Blob) (mimeType : string)
| DoReset
| DataAvailable (data : Blob)
| Started
| Paused
| Resumed
| Errored
| Stopped.

Definition apply (st : State) (op : Op) : State :=
  match op with
  | DoStart startThrows => start startThrows st
  | DoPause => pause st
  | DoResume => resume st
  | DoStop captured mimeType => fst (stop captured mimeType st)
  | DoReset => reset st
  | DataAvailable data => onDataAvailable data st
  | Started => onStart st
  | Paused => onPause st
  | Resumed => onResume st
  | Errored => onError st
  | Stopped => fst (fireStop st)
  end.

Definition applyAll (st : State) (ops : list Op) : State :=
  fold_left apply ops st.

(** The engine states in which a method does something: [start] on an
    inactive engine, [pause] on a recording one, [resume] on a paused one,
    [stop] on an active one. *)
Definition effective (s : RecordingState) (c : EngineCall) : bool :=
  match c, s with
  | CallStart _, inactive => true
  | CallPause, recording => true
  | CallResume, paused => true
  | CallStop, recording => true
  | CallStop, paused => true
  | _, _ => false
  end.

(** The effect's cleanup (stream or MIME type changed, or unmount): an
    active engine is stopped, and the ref is cleared. *)
Definition detach (st : State) : State :=
  mkState (isRecording st) (isPaused st) (chunks st) (error st) None
          (match recorderRef st with
           | Some r =>
               match state r with
               | inactive => calls st
               | _ => CallStop :: calls st
               end
           | None => calls st
           end).

End RecorderOps.

(* ===================================================================== *)
(** * src/utils/index.ts and src/types: formats and device detection *)
(* ===================================================================== *)

Module Formats.

Local Open Scope string_scope.

Record AudioFormat : Type := mkFormat {
  mimeType : string;
  extension : string;
  supported : bool
}.

Definition SUPPORTED_AUDIO_FORMATS : list AudioFormat :=
  [ mkFormat "audio/webm" "webm" true;
    mkFormat "audio/mp4" "mp4" true;
    mkFormat "audio/wav" "wav" true;
    mkFormat "audio/ogg" "ogg" true ].

(** The platform as these functions see it: the global [MediaRecorder] may
    be missing altogether, and where it exists its [isTypeSupported] may be
    missing. *)
Inductive Platform : Type :=
| NoMediaRecorder
| MediaRecorderWith (isTypeSupported : option (string -> bool)).

(** The outcome of a call: a returned value, or the [ReferenceError] raised
    by reading the missing global (nothing in these functions catches it). *)
Inductive Outcome (A : Type) : Type :=
| Returned (value : A)
| ThrewReferenceError.

Arguments Returned {A} value.
Arguments ThrewReferenceError {A}.

(** The callback passed to [filter]. *)
Definition isSupported (platform : Platform) (format : AudioFormat)
  : Outcome bool :=
  match platform with
  | NoMediaRecorder => ThrewReferenceError
  | MediaRecorderWith None => Returned false
  | MediaRecorderWith (Some supports) => Returned (supports (mimeType format))
  end.

(** [Array.prototype.filter] with a callback that may throw: the first
    throw ends the call. *)
Fixpoint filterOutcome {A : Type} (keep : A -> Outcome bool) (l : list A)
  : Outcome (list A) :=
  match l with
  | [] => Returned []
  | a :: rest =>
      match keep a with
      | ThrewReferenceError => ThrewReferenceError
      | Returned b =>
          match filterOutcome keep rest with
          | ThrewReferenceError => ThrewReferenceError
          | Returned kept => Returned (if b then a :: kept else kept)
          end
      end
  end.

(** [getSupportedAudioFormats()] *)
Definition getSupportedAudioFormats (platform : Platform)
  : Outcome (list AudioFormat) :=
  filterOutcome (isSupported platform) SUPPORTED_AUDIO_FORMATS.

Definition priority : list string :=
  [ "audio/webm"; "audio/mp4"; "audio/wav"; "audio/ogg" ].

(** The loop [for (const mimeType of priority)] with its early return. *)
Fixpoint firstByPriority (supportedFormats : list AudioFormat)
                         (remaining : list string) : option string :=
  match remaining with
  | [] => None
  | m :: rest =>
      match find (fun f => mimeType f =? m) supportedFormats with
      | Some format => Some (mimeType format)
      | None => firstByPriority supportedFormats rest
      end
  end.

(** [getBestAudioFormat()] *)
Definition getBestAudioFormat (platform : Platform) : Outcome string :=
  match getSupportedAudioFormats platform with
  | ThrewReferenceError => ThrewReferenceError
  | Returned supportedFormats =>
      match firstByPriority supportedFormats priority with
      | Some m => Returned m
      | None => Returned "audio/webm"
      end
  end.

End Formats.

Module Device.

Local Open Scope string_scope.

(** [pattern] occurs somewhere in [text]: what [/pattern/.test(text)] decides
    for a pattern without special characters. *)
Fixpoint contains (pattern text : string) : bool :=
  String.prefix pattern text ||
  match text with
  | EmptyString => false
  | String _ rest => contains pattern rest
  end.

(** Case folding of the letters A-Z, as the [i] flag compares them. *)
Definition foldCase (c : ascii) : ascii :=
  let n := nat_of_ascii c in
  if (65 <=? n)%nat && (n <=? 90)%nat then ascii_of_nat (n + 32) else c.

Fixpoint foldString (s : string) : string :=
  match s with
  | EmptyString => EmptyString
  | String c rest => String (foldCase c) (foldString rest)
  end.

(** [/pattern/i.test(text)] *)
Definition containsIgnoreCase (pattern text : string) : bool :=
  contains (foldString pattern) (foldString text).

Record DeviceInfo : Type := mkDeviceInfo {
  userAgent : string;
  isMobile : bool;
  isIOS : bool;
  isAndroid : bool;
  isSafari : bool;
  isChrome : bool;
  isFirefox : bool
}.

(** [getDeviceInfo()], given [navigator.userAgent]. *)
Definition getDeviceInfo (userAgent : string) : DeviceInfo :=
  mkDeviceInfo
    userAgent
    (existsb (fun p => containsIgnoreCase p userAgent)
       [ "Android"; "webOS"; "iPhone"; "iPad"; "iPod"; "BlackBerry";
         "IEMobile"; "Opera Mini" ])
    (existsb (fun p => contains p userAgent) [ "iPad"; "iPhone"; "iPod" ])
    (contains "Android" userAgent)
    (contains "Safari" userAgent && negb (contains "Chrome" userAgent))
    (contains "Chrome" userAgent && negb (contains "Edge" userAgent))
    (contains "Firefox" userAgent).

End Device.

(* ===================================================================== *)
(** * hooks/useAudioPlayer and the facade's auto-play effect *)
(* ===================================================================== *)

Module Player.

(** Methods of the audio element the hook invokes. *)
Inductive ElementCall : Type :=
| CallPlay
| CallPauseElement.

Record State : Type := mkState {
  isPlaying : bool;                  (* useState(false) *)
  audioRef : bool;                   (* audioRef.current is an element *)
  elementCalls : list ElementCall    (* element calls, most recent first *)
}.

Definition initial : State := mkState false false [].

(** [playPause()] as created in a render whose [isPlaying] was [captured]
    (the callback is re-created whenever [isPlaying] changes). *)
Definition playPause (captured : bool) (st : State) : State :=
  if negb (audioRef st) then st
  else if captured
       then mkState false (audioRef st) (CallPauseElement :: elementCalls st)
       else mkState true (audioRef st) (CallPlay :: elementCalls st).

(** [handleAudioEnded()] *)
Definition handleAudioEnded (st : State) : State :=
  mkState false (audioRef st) (elementCalls st).

(** [resetPlayer()], with the same capture as [playPause]. *)
Definition resetPlayer (captured : bool) (st : State) : State :=
  mkState false (audioRef st)
          (if captured && audioRef st
           then CallPauseElement :: elementCalls st
           else elementCalls st).

End Player.

Module AutoPlay.

(** The cells the auto-play effect reads, and its pending timeout. *)
Record State : Type := mkState {
  player : Player.State;
  hasRecordedBlob : bool;    (* recordedBlob is not null *)
  timer : bool               (* the 100 ms timeout is pending *)
}.

(** The effect's cleanup: [clearTimeout(timer)]. *)
Definition cleanup (st : State) : State :=
  mkState (player st) (hasRecordedBlob st) false.

(** The effect body. *)
Definition effect (autoPlayAfterRecording : bool) (st : State) : State :=
  if autoPlayAfterRecording && hasRecordedBlob st
     && negb (Player.isPlaying (player st))
  then mkState (player st) (hasRecordedBlob st) true
  else st.

(** A render in which a dependency of the effect changed. *)
Definition rerun (autoPlayAfterRecording : bool) (st : State) : State :=
  effect autoPlayAfterRecording (cleanup st).

(** A change of the player made by [change], followed by the effect when
    [isPlaying] (and with it [playPause]) changed. *)
Definition withPlayer (autoPlayAfterRecording : bool)
                      (change : Player.State -> Player.State)
                      (st : State) : State :=
  let st' := mkState (change (player st)) (hasRecordedBlob st) (timer st) in
  if Bool.eqb (Player.isPlaying (player st')) (Player.isPlaying (player st))
  then st'
  else rerun autoPlayAfterRecording st'.

(** The user calls the facade's [playPause] of the current render. *)
Definition userPlayPause (autoPlayAfterRecording : bool) (st : State) : State :=
  withPlayer autoPlayAfterRecording
             (Player.playPause (Player.isPlaying (player st))) st.

(** The timeout elapses: it was scheduled in a render whose [isPlaying] was
    false, and calls that render's [playPause]. *)
Definition timerFires (autoPlayAfterRecording : bool) (st : State) : State :=
  if timer st
  then withPlayer autoPlayAfterRecording (Player.playPause false)
                  (mkState (player st) (hasRecordedBlob st) false)
  else st.

End AutoPlay.

(* ===================================================================== *)
(** * hooks/useVoiceRecorder: stopRecording over the recorder and the URLs *)
(* ===================================================================== *)

Module Facade.

Import Orchestrator.

(** The recorder, the blob state with its URL management, and the identity
    the next [new Blob] object will have. *)
Record State : Type := mkState {
  recorder : Recorder.State;
  urls : Urls;
  recorded : option Recorder.Blob;   (* the contents of recordedBlob *)
  nextBlob : BlobRef
}.

(** [stopRecording()]: [await stop()], then [setRecordedBlob(blob)] and
    [return blob]; [flushed] is what the engine delivers on the way. *)
Definition stopRecording (mimeType : string) (flushed : Recorder.Blob)
                         (st : State) : State * option Recorder.Blob :=
  match Recorder.stopAndSettle mimeType flushed (recorder st) with
  | (recorder', Recorder.Resolved (Some blob)) =>
      (mkState recorder' (setRecordedBlob (Some (nextBlob st)) (urls st))
               (Some blob) (S (nextBlob st)),
       Some blob)
  | (recorder', Recorder.Resolved None) =>
      (mkState recorder' (setRecordedBlob None (urls st)) None (nextBlob st),
       None)
  | (recorder', Recorder.Pending) =>
      (mkState recorder' (urls st) (recorded st) (nextBlob st), None)
  end.

End Facade.

(* ===================================================================== *)
(** * hooks/useAudioMeter: the effect's buffer and the frames read into it *)
(* ===================================================================== *)

Module MeterSetup.

(** The values the platform's [fftSize] setter accepts: the powers of two
    from 32 to 32768; for any other value it throws (IndexSizeError). *)
Definition acceptedFftSizes : list nat :=
  map (Nat.pow 2) [5; 6; 7; 8; 9; 10; 11; 12; 13; 14; 15].

Definition acceptsFftSize (fftSize : nat) : bool :=
  existsb (Nat.eqb fftSize) acceptedFftSizes.

(** [new Uint8Array(n)]: [n] zero bytes. *)
Definition newUint8Array (n : nat) : list Z := repeat 0%Z n.

(** The effect body for a non-null context and stream, with the buffer it
    allocates: [analyser.fftSize = fftSize] (the effect ends there when the
    setter throws), then [new Uint8Array(analyser.frequencyBinCount)]. *)
Definition effect (fftSize : nat) (st : Meter.State)
  : option (Meter.State * list Z) :=
  if acceptsFftSize fftSize then
    let bufferLength := Meter.frequencyBinCount fftSize in
    let data := newUint8Array bufferLength in
    Some (Meter.effect st, data)
  else None.

(** The platform's [getByteTimeDomainData(data)]: the current waveform is
    copied into [data]; samples that do not fit are dropped, and elements of
    [data] beyond the waveform are left as they are. *)
Definition getByteTimeDomainData (waveform data : list Z) : list Z :=
  firstn (List.length data) waveform ++ skipn (List.length waveform) data.

(** One frame of [tick]: the buffer is refilled and metered. *)
Definition frame (waveform : list Z) (cell : Meter.State * list Z)
  : Meter.State * list Z :=
  let data := getByteTimeDomainData waveform (snd cell) in
  (Meter.tick data (fst cell), data).

(** The frames that follow the effect, one per waveform. *)
Definition frames (waveforms : list (list Z)) (cell : Meter.State * list Z)
  : Meter.State * list Z :=
  fold_left (fun c waveform => frame waveform c) waveforms cell.

End MeterSetup.

(* ===================================================================== *)
(** * Properties of the formatting utilities *)
(* ===================================================================== *)

Module FormatSpec.

Local Open Scope Z_scope.

(** For every two-digit value, padding the decimal string to width two is
    the digit-by-digit rendering; checked over the whole range. *)
Lemma pad2_table :
  forallb (fun k => String.eqb (Js.pad2 (Z.of_nat k)) (Js.two_digits (Z.of_nat k)))
          (seq 0 100) = true.
Proof. vm_compute. reflexivity. Qed.

(** Reading one row of a checked table of string equalities. *)
Ltac from_table table n :=
  let Hrow := fresh "Hrow" in
  pose proof table as Hrow;
  rewrite forallb_forall in Hrow;
  specialize (Hrow (Z.to_nat n));
  rewrite Z2Nat.id in Hrow by lia;
  apply String.eqb_eq, Hrow, in_seq; lia.

Lemma pad2_two_digits (n : Z) :
  0 <= n < 100 -> Js.pad2 n = Js.two_digits n.
Proof. intros Hn. from_table pad2_table n. Qed.

(** A number of at least two digits has a decimal string of at least two
    characters, which [padStart(2, '0')] returns unchanged. *)
Lemma toString_length_ge_2 (n : Z) :
  10 <= n -> (2 <= String.length (Js.toString n))%nat.
Proof.
  intros Hn. destruct n as [|p|p]; try lia.
  unfold Js.toString. cbn [Z.to_int NilZero.string_of_int].
  pose proof (DecimalPos.Unsigned.of_to p) as Hof.
  destruct (Pos.to_uint p) as [|u|u|u|u|u|u|u|u|u|u];
    try (cbn in Hof; discriminate);
    destruct u; cbn in Hof |- *; try lia;
    try (injection Hof as Hof; lia).
Qed.

Lemma pad2_ge_10 (n : Z) : 10 <= n -> Js.pad2 n = Js.toString n.
Proof.
  intros Hn. pose proof (toString_length_ge_2 n Hn) as Hlen.
  unfold Js.pad2, Js.padStart.
  replace (2 - String.length (Js.toString n))%nat with 0%nat by lia.
  reflexivity.
Qed.

(** A one-digit number gets exactly one zero in front; checked over the
    ten digits. *)
Lemma pad2_digit_table :
  forallb (fun k => String.eqb (Js.pad2 (Z.of_nat k))
                               (String "0"%char (Js.toString (Z.of_nat k))))
          (seq 0 10) = true.
Proof. vm_compute. reflexivity. Qed.

Lemma pad2_lt_10 (n : Z) :
  0 <= n < 10 -> Js.pad2 n = String "0"%char (Js.toString n).
Proof. intros Hn. from_table pad2_digit_table n. Qed.

(** The three fields the formatters compute, for a non-negative count:
    JavaScript's remainder coincides with the mathematical one. *)
Lemma fields_nonneg (s : Z) :
  0 <= s ->
  Z.rem s 3600 / 60 = (s mod 3600) / 60 /\ Z.rem s 60 = s mod 60.
Proof.
  intros Hs. rewrite !Z.rem_mod_nonneg by lia. split; reflexivity.
Qed.

Lemma fields_decompose (s : Z) :
  0 <= s ->
  s = 3600 * (s / 3600) + 60 * ((s mod 3600) / 60) + s mod 60 /\
  0 <= s / 3600 /\
  0 <= (s mod 3600) / 60 < 60 /\
  0 <= s mod 60 < 60.
Proof.
  intros Hs.
  pose proof (Z.div_mod s 3600 ltac:(lia)) as H1.
  pose proof (Z.mod_pos_bound s 3600 ltac:(lia)) as H2.
  pose proof (Z.div_mod (s mod 3600) 60 ltac:(lia)) as H3.
  pose proof (Z.mod_pos_bound (s mod 3600) 60 ltac:(lia)) as H4.
  pose proof (Z.mod_pos_bound s 60 ltac:(lia)) as H5.
  assert (Hmm : (s mod 3600) mod 60 = s mod 60).
  { clear H1 H2 H3 H4 H5. Z.div_mod_to_equations. lia. }
  assert (0 <= s / 3600) by (apply Z.div_pos; lia).
  assert (0 <= (s mod 3600) / 60) by (apply Z.div_pos; lia).
  assert ((s mod 3600) / 60 < 60) by (apply Z.div_lt_upper_bound; lia).
  repeat split; lia.
Qed.

(** The claim's reading of the utility path: zero-padded fields, with the
    hours field left out when the hour count is zero. *)
Definition claimedDuration (s : Z) : string :=
  let h := s / 3600 in
  let m := (s mod 3600) / 60 in
  let sec := s mod 60 in
  (if (0 <? h)%Z
   then Js.toString h ++ ":" ++ Js.pad2 m ++ ":" ++ Js.pad2 sec
   else Js.pad2 m ++ ":" ++ Js.pad2 sec)%string.

(** Dropping the hours field and its colon from an HH:MM:SS string. *)
Fixpoint dropHours (t : string) : string :=
  match t with
  | EmptyString => EmptyString
  | String c rest => if Ascii.eqb c ":"%char then rest else dropHours rest
  end.

(** "Apart from the hour omission the two paths agree". *)
Definition agreeApartFromHourOmission (s : Z) : Prop :=
  Utils.formatDuration s =
  if s / 3600 =? 0 then dropHours (Timer.formatTime s) else Timer.formatTime s.

(** The zero-padding by which the timer path's output is longer than the
    utility path's: nothing for ten hours or more, one zero below ten hours,
    the empty hours field (and one more zero below ten minutes) when the
    hour count is zero. *)
Definition zeroPadding (s : Z) : string :=
  let h := s / 3600 in
  let m := (s mod 3600) / 60 in
  (if (10 <=? h)%Z then ""
   else if (0 <? h)%Z then "0"
   else if (10 <=? m)%Z then "00:"
   else "00:0")%string.

(** C6, as stated, fails: for 120 seconds the utility path prints the minutes
    unpadded ("2:00"), which is neither the zero-padded "02:00" nor the timer
    path's "00:02:00" with the hours dropped; for 3723 seconds the two paths
    differ ("1:02:03" against "01:02:03") although no hour is omitted. *)
Lemma formatDuration_unpadded_leading_field :
  Utils.formatDuration 120 = "2:00"%string /\
  Timer.formatTime 120 = "00:02:00"%string /\
  Utils.formatDuration 120 <> claimedDuration 120 /\
  ~ agreeApartFromHourOmission 120 /\
  Utils.formatDuration 3723 = "1:02:03"%string /\
  Timer.formatTime 3723 = "01:02:03"%string /\
  ~ agreeApartFromHourOmission 3723.
Proof.
  repeat split; try reflexivity; unfold agreeApartFromHourOmission;
    vm_compute; discriminate.
Qed.

(** C6, amended: for a non-negative whole number of seconds [s] that is a
    safe integer ([s <= Number.MAX_SAFE_INTEGER], that is [s < 2^53]), with
    hours [h], minutes [m < 60] and seconds [sec < 60], [formatTime] prints
    [h] padded to at least two digits, then the two-digit minutes and
    seconds; [formatDuration] prints [h] unpadded followed by the same
    two-digit minutes and seconds when [h > 0], and the unpadded minutes
    followed by the same two-digit seconds when [h = 0].  So the two agree on
    every field after the leading one, and the timer path's output is the
    utility path's output with the zero-padding of the leading field (and
    the empty hours field) put in front; they coincide from ten hours on. *)
Theorem formatTime_formatDuration_fields (s : Z) :
  0 <= s ->
  s <= Js.MAX_SAFE_INTEGER ->
  let h := s / 3600 in
  let m := (s mod 3600) / 60 in
  let sec := s mod 60 in
  s = 3600 * h + 60 * m + sec /\ 0 <= h /\ 0 <= m < 60 /\ 0 <= sec < 60 /\
  Timer.formatTime s
    = (Js.pad2 h ++ ":" ++ Js.two_digits m ++ ":" ++ Js.two_digits sec)%string /\
  (h < 100 -> Js.pad2 h = Js.two_digits h) /\
  (10 <= h -> Js.pad2 h = Js.toString h) /\
  Utils.formatDuration s
    = (if (0 <? h)%Z
       then Js.toString h ++ ":" ++ Js.two_digits m ++ ":" ++ Js.two_digits sec
       else Js.toString m ++ ":" ++ Js.two_digits sec)%string /\
  Timer.formatTime s = (zeroPadding s ++ Utils.formatDuration s)%string.
Proof.
  intros Hs _ h m sec.
  destruct (fields_decompose s Hs) as (Hdec & Hh & Hm & Hsec).
  destruct (fields_nonneg s Hs) as (Em & Esec).
  fold h m sec in Hdec, Hh, Hm, Hsec.
  split; [exact Hdec|]. split; [exact Hh|]. split; [exact Hm|].
  split; [exact Hsec|].
  assert (Pm : Js.pad2 m = Js.two_digits m) by (apply pad2_two_digits; lia).
  assert (Ps : Js.pad2 sec = Js.two_digits sec) by (apply pad2_two_digits; lia).
  assert (Ht : Timer.formatTime s
               = (Js.pad2 h ++ ":" ++ Js.pad2 m ++ ":" ++ Js.pad2 sec)%string).
  { unfold Timer.formatTime. rewrite Em, Esec. reflexivity. }
  assert (Hd : Utils.formatDuration s
               = (if (0 <? h)%Z
                  then Js.toString h ++ ":" ++ Js.pad2 m ++ ":" ++ Js.pad2 sec
                  else Js.toString m ++ ":" ++ Js.pad2 sec)%string).
  { unfold Utils.formatDuration. rewrite Em, Esec. reflexivity. }
  split; [rewrite Ht, Pm, Ps; reflexivity|].
  split; [intros Hlt; apply pad2_two_digits; lia|].
  split; [apply pad2_ge_10|].
  split; [rewrite Hd, Pm, Ps; reflexivity|].
  rewrite Ht, Hd. unfold zeroPadding. fold h m.
  destruct (Z.leb_spec 10 h) as [H10|H10].
  - replace (0 <? h) with true by (symmetry; apply Z.ltb_lt; lia).
    rewrite (pad2_ge_10 h H10). reflexivity.
  - destruct (Z.ltb_spec 0 h) as [H0|H0].
    + rewrite (pad2_lt_10 h) by lia. reflexivity.
    + assert (Eh : h = 0) by lia. rewrite Eh.
      destruct (Z.leb_spec 10 m) as [M10|M10].
      * rewrite (pad2_ge_10 m M10). reflexivity.
      * rewrite (pad2_lt_10 m) by lia. reflexivity.
Qed.

Lemma formatTime_formatDuration_fields_witness :
  0 <= 3723 /\
  3723 <= Js.MAX_SAFE_INTEGER /\
  Timer.formatTime 3723 = "01:02:03"%string /\
  Utils.formatDuration 3723 = "1:02:03"%string /\
  Timer.formatTime 3723 = ("0" ++ Utils.formatDuration 3723)%string.
Proof.
  assert (Hmax : 3723 <= Js.MAX_SAFE_INTEGER)
    by (unfold Js.MAX_SAFE_INTEGER; lia).
  split; [lia|]. split; [exact Hmax|].
  pose proof (formatTime_formatDuration_fields 3723 ltac:(lia) Hmax) as H.
  cbv zeta in H.
  destruct H as (_ & _ & _ & _ & Ht & _ & _ & Hd & Hp).
  split; [rewrite Ht; reflexivity|].
  split; [rewrite Hd; reflexivity|].
  rewrite Hp. reflexivity.
Defined.

End FormatSpec.

(* ===================================================================== *)
(** * Properties of the level computations *)
(* ===================================================================== *)

Module LevelSpec.

Import Utils Meter.
Local Open Scope R_scope.

(** The clamp [Math.max(0, Math.min(1, level))]. *)
Lemma clamp_range (level : R) : 0 <= Rmax 0 (Rmin 1 level) <= 1.
Proof.
  split.
  - apply Rmax_l.
  - apply Rmax_lub; [lra | apply Rmin_l].
Qed.

Lemma clamp_cases (level : R) :
  (level <= 0 -> Rmax 0 (Rmin 1 level) = 0) /\
  (0 <= level <= 1 -> Rmax 0 (Rmin 1 level) = level) /\
  (1 <= level -> Rmax 0 (Rmin 1 level) = 1).
Proof.
  repeat split; intros H.
  - rewrite Rmin_right by lra. apply Rmax_left. lra.
  - rewrite Rmin_right by lra. apply Rmax_right. lra.
  - rewrite Rmin_left by lra. apply Rmax_right. lra.
Qed.

(** C10: for every real [level] and threshold [minLevel],
    [normalizeAudioLevel] returns a value in [0, 1]; with [clamped] the input
    clamped to [0, 1], the result is exactly 0 when [clamped < minLevel] and
    is [clamped] itself when [clamped >= minLevel]; the default threshold is
    0.01. *)
Theorem normalizeAudioLevel_clamps_and_gates (level minLevel : R) :
  let clamped := Rmax 0 (Rmin 1 level) in
  let out := normalizeAudioLevel level minLevel in
  0 <= out <= 1 /\
  0 <= clamped <= 1 /\
  (level <= 0 -> clamped = 0) /\
  (0 <= level <= 1 -> clamped = level) /\
  (1 <= level -> clamped = 1) /\
  (clamped < minLevel -> out = 0) /\
  (minLevel <= clamped -> out = clamped) /\
  normalizeAudioLevel_default level = normalizeAudioLevel level (1 / 100).
Proof.
  intros clamped out.
  pose proof (clamp_range level) as Hc. fold clamped in Hc.
  destruct (clamp_cases level) as (H0 & H1 & H2). fold clamped in H0, H1, H2.
  assert (Hout : out = if Rlt_dec clamped minLevel then 0 else clamped)
    by reflexivity.
  repeat split; try tauto; try lra.
  - rewrite Hout. destruct (Rlt_dec clamped minLevel); lra.
  - rewrite Hout. destruct (Rlt_dec clamped minLevel); lra.
  - intros Hlt. rewrite Hout. destruct (Rlt_dec clamped minLevel); lra.
  - intros Hge. rewrite Hout. destruct (Rlt_dec clamped minLevel); lra.
Qed.

(** ** The meter's RMS *)

Lemma normalizedSample_square_range (d : Z) :
  isByte d -> 0 <= normalizedSample d * normalizedSample d <= 1.
Proof.
  unfold isByte, normalizedSample. intros [Hlo Hhi].
  apply IZR_le in Hlo. apply IZR_le in Hhi.
  assert (Hv : -1 <= (IZR d - 128) / 128 <= 1) by lra.
  set (v := (IZR d - 128) / 128) in *.
  pose proof (Rle_0_sqr v) as Hsq. unfold Rsqr in Hsq.
  pose proof (Rmult_le_pos (1 - v) (1 + v) ltac:(lra) ltac:(lra)) as Hprod.
  lra.
Qed.

(** The loop's accumulator grows by at most 1 per byte sample. *)
Lemma sumSquares_loop_range (data : list Z) (acc : R) :
  Forall isByte data ->
  let total :=
    fold_left (fun a d => a + normalizedSample d * normalizedSample d) data acc in
  acc <= total <= acc + INR (List.length data).
Proof.
  intros Hall. revert acc.
  induction Hall as [|d data Hd _ IH]; intros acc.
  - simpl. lra.
  - cbn zeta in IH |- *.
    change (fold_left _ (d :: data) acc)
      with (fold_left (fun a d => a + normalizedSample d * normalizedSample d)
                      data (acc + normalizedSample d * normalizedSample d)).
    specialize (IH (acc + normalizedSample d * normalizedSample d)).
    pose proof (normalizedSample_square_range d Hd) as Hsq.
    change (List.length (d :: data)) with (S (List.length data)).
    rewrite S_INR. lra.
Qed.

Lemma sumSquares_range (data : list Z) :
  Forall isByte data -> 0 <= sumSquares data <= INR (List.length data).
Proof.
  intros Hall. pose proof (sumSquares_loop_range data 0 Hall) as H.
  cbn zeta in H. unfold sumSquares. lra.
Qed.

(** The accumulator is exactly an integer multiple of [2^-14]: on byte
    samples no term of the loop is rounded. *)
Lemma sumSquares_loop_exact (data : list Z) (acc : Z) :
  fold_left (fun a d => a + normalizedSample d * normalizedSample d) data
            (IZR acc / 16384)
  = IZR (fold_left (fun a d => a + (d - 128) * (d - 128))%Z data acc) / 16384.
Proof.
  revert acc. induction data as [|d data IH]; intros acc.
  - reflexivity.
  - simpl fold_left. rewrite <- IH. f_equal.
    unfold normalizedSample.
    rewrite plus_IZR, mult_IZR, minus_IZR. field.
Qed.

Lemma sumSquares_exact (data : list Z) :
  sumSquares data = IZR (sumSquaresNumerator data) / 16384.
Proof.
  unfold sumSquares, sumSquaresNumerator.
  rewrite <- sumSquares_loop_exact. f_equal. simpl. lra.
Qed.

Lemma sumSquares_silent (data : list Z) :
  Forall (fun d => d = 128%Z) data -> sumSquares data = 0.
Proof.
  intros Hall. rewrite sumSquares_exact.
  assert (Hnum : forall acc,
             fold_left (fun a d => a + (d - 128) * (d - 128))%Z data acc = acc).
  { induction Hall as [|d data Hd _ IH]; intros acc.
    - reflexivity.
    - simpl. subst d. rewrite IH. lia. }
  unfold sumSquaresNumerator. rewrite Hnum. simpl. lra.
Qed.

Lemma length_pos_INR {A : Type} (l : list A) :
  l <> [] -> 0 < INR (List.length l).
Proof.
  intros Hne. destruct l as [|a l]; [congruence|].
  apply lt_0_INR. simpl. lia.
Qed.

(** The empty buffer is the one input on which the quotient is [0 / 0]. *)
Lemma rms_empty : rms [] = NaN.
Proof. reflexivity. Qed.

(** C2: for every waveform buffer the analyser hands to the meter (its
    length is [frequencyBinCount >= 16], so it is not empty) whose samples
    all lie in the byte range 0..255, the level published by [tick] is a
    real number in the closed interval [0, 1]. *)
Theorem tick_level_in_unit_interval (data : list Z) (st : State) :
  Forall isByte data ->
  data <> [] ->
  exists r : R, level (tick data st) = Num r /\ 0 <= r <= 1.
Proof.
  intros Hall Hne.
  destruct data as [|d data']; [congruence|].
  set (data := d :: data') in *.
  exists (sqrt (sumSquares data / INR (List.length data))).
  split; [reflexivity|].
  pose proof (sumSquares_range data Hall) as [Hlo Hhi].
  pose proof (length_pos_INR data Hne) as Hn.
  assert (Hq : 0 <= sumSquares data / INR (List.length data) <= 1).
  { split.
    - apply Rmult_le_pos; [exact Hlo|].
      left. apply Rinv_0_lt_compat. exact Hn.
    - apply Rmult_le_reg_r with (r := INR (List.length data)); [exact Hn|].
      unfold Rdiv. rewrite Rmult_assoc, Rinv_l by lra. lra. }
  split.
  - apply sqrt_pos.
  - rewrite <- sqrt_1. apply sqrt_le_1; lra.
Qed.

Lemma tick_level_in_unit_interval_witness :
  Forall isByte [0%Z; 128%Z; 255%Z] /\
  [0%Z; 128%Z; 255%Z] <> [] /\
  exists r : R, level (tick [0%Z; 128%Z; 255%Z] initial) = Num r /\ 0 <= r <= 1.
Proof.
  assert (Hall : Forall isByte [0%Z; 128%Z; 255%Z])
    by (repeat constructor; unfold isByte; lia).
  assert (Hne : [0%Z; 128%Z; 255%Z] <> []) by discriminate.
  split; [exact Hall|]. split; [exact Hne|].
  exact (tick_level_in_unit_interval [0%Z; 128%Z; 255%Z] initial Hall Hne).
Defined.

(** C9: for every (non-empty) buffer in which all samples equal the
    zero-amplitude midpoint 128, the level published by [tick] is exactly
    0. *)
Theorem tick_level_silent_buffer (data : list Z) (st : State) :
  Forall (fun d => d = 128%Z) data ->
  data <> [] ->
  level (tick data st) = Num 0.
Proof.
  intros Hall Hne.
  destruct data as [|d data']; [congruence|].
  set (data := d :: data') in *.
  change (level (tick data st))
    with (Num (sqrt (sumSquares data / INR (List.length data)))).
  rewrite (sumSquares_silent data Hall).
  unfold Rdiv. rewrite Rmult_0_l, sqrt_0. reflexivity.
Qed.

Lemma tick_level_silent_buffer_witness :
  Forall (fun d => d = 128%Z) [128%Z; 128%Z; 128%Z; 128%Z] /\
  [128%Z; 128%Z; 128%Z; 128%Z] <> [] /\
  level (tick [128%Z; 128%Z; 128%Z; 128%Z] initial) = Num 0.
Proof.
  assert (Hall : Forall (fun d => d = 128%Z) [128%Z; 128%Z; 128%Z; 128%Z])
    by (repeat constructor).
  assert (Hne : [128%Z; 128%Z; 128%Z; 128%Z] <> []) by discriminate.
  split; [exact Hall|]. split; [exact Hne|].
  exact (tick_level_silent_buffer [128%Z; 128%Z; 128%Z; 128%Z] initial Hall Hne).
Defined.

(** The buffer the hook allocates is never empty: the platform only accepts
    [fftSize >= 32], so [frequencyBinCount >= 16]. *)
Lemma allocated_buffer_nonempty (fftSize : nat) (data : list Z) :
  (32 <= fftSize)%nat ->
  List.length data = frequencyBinCount fftSize ->
  data <> [].
Proof.
  intros Hfft Hlen Hnil. subst data. simpl in Hlen.
  unfold frequencyBinCount in Hlen.
  pose proof (Nat.div_le_lower_bound fftSize 2 16 ltac:(lia) ltac:(lia)).
  lia.
Qed.

Lemma allocated_buffer_nonempty_witness :
  (32 <= 32)%nat /\
  List.length (repeat 128%Z 16) = frequencyBinCount 32 /\
  repeat 128%Z 16 <> [].
Proof.
  assert (Hfft : (32 <= 32)%nat) by lia.
  split; [exact Hfft|]. split; [reflexivity|].
  exact (allocated_buffer_nonempty 32 (repeat 128%Z 16) Hfft eq_refl).
Defined.

End LevelSpec.

(* ===================================================================== *)
(** * Properties of the microphone manager *)
(* ===================================================================== *)

Module MicrophoneSpec.

Import Microphone.
Local Open Scope string_scope.

(** The four messages are pairwise different, so a message names its
    category. *)
Lemma messages_distinct :
  MSG_PERMISSION_DENIED <> MSG_NOT_FOUND /\
  MSG_PERMISSION_DENIED <> MSG_UNAVAILABLE /\
  MSG_PERMISSION_DENIED <> MSG_GENERIC /\
  MSG_NOT_FOUND <> MSG_UNAVAILABLE /\
  MSG_NOT_FOUND <> MSG_GENERIC /\
  MSG_UNAVAILABLE <> MSG_GENERIC.
Proof. repeat split; discriminate. Qed.

(** The platform's name for the caught value, when it is an object that
    has one. *)
Definition nameOf (err : Thrown) : option string :=
  match err with
  | ThrownObject name => name
  | _ => None
  end.

Definition isDenial (err : Thrown) : Prop :=
  nameOf err = Some "NotAllowedError" \/ nameOf err = Some "SecurityError".

Lemma errorMessage_cases (err : Thrown) :
  (isDenial err /\ errorMessage err = MSG_PERMISSION_DENIED) \/
  (nameOf err = Some "NotFoundError" /\ errorMessage err = MSG_NOT_FOUND) \/
  (nameOf err = Some "NotReadableError" /\ errorMessage err = MSG_UNAVAILABLE) \/
  (~ isDenial err /\ nameOf err <> Some "NotFoundError" /\
   nameOf err <> Some "NotReadableError" /\ errorMessage err = MSG_GENERIC).
Proof.
  unfold isDenial.
  destruct err as [| |text|[name|]]; simpl;
    try (right; right; right; repeat split;
         [intros [H|H]; discriminate | discriminate | discriminate]).
  destruct (String.eqb_spec name "NotAllowedError") as [E1|N1].
  { left. subst name. split; [left|]; reflexivity. }
  destruct (String.eqb_spec name "SecurityError") as [E2|N2].
  { left. subst name. split; [right|]; reflexivity. }
  simpl.
  destruct (String.eqb_spec name "NotFoundError") as [E3|N3].
  { right; left. subst name. split; reflexivity. }
  destruct (String.eqb_spec name "NotReadableError") as [E4|N4].
  { right; right; left. subst name. split; reflexivity. }
  right; right; right. repeat split; try congruence.
  intros [H|H]; congruence.
Qed.

(** C8: after a failed [enable], whatever value the platform rejected with,
    the enabled flag is false and the error field holds exactly one of four
    messages: permission-denied exactly for NotAllowedError and
    SecurityError, device-not-found exactly for NotFoundError,
    device-unavailable exactly for NotReadableError, and the generic message
    for everything else. *)
Theorem enable_failure_categories (err : Thrown) (st : State) :
  let st' := enable (Rejected err) st in
  isEnabled st' = false /\
  error st' = Some (errorMessage err) /\
  (error st' = Some MSG_PERMISSION_DENIED <-> isDenial err) /\
  (error st' = Some MSG_NOT_FOUND <-> nameOf err = Some "NotFoundError") /\
  (error st' = Some MSG_UNAVAILABLE <-> nameOf err = Some "NotReadableError") /\
  (error st' = Some MSG_GENERIC <->
     ~ isDenial err /\ nameOf err <> Some "NotFoundError" /\
     nameOf err <> Some "NotReadableError").
Proof.
  intros st'.
  assert (Herr : error st' = Some (errorMessage err)) by reflexivity.
  split; [reflexivity|]. split; [exact Herr|].
  rewrite Herr.
  destruct messages_distinct as (D1 & D2 & D3 & D4 & D5 & D6).
  destruct (errorMessage_cases err)
    as [(Hc & Hm)|[(Hc & Hm)|[(Hc & Hm)|(Hn1 & Hn2 & Hn3 & Hm)]]];
    rewrite Hm; unfold isDenial in *;
    repeat split; intros; intuition congruence.
Qed.

(** The scenario of the specification: the platform denies the request. *)
Lemma enable_denied_scenario (st : State) :
  let st' := enable (Rejected (ThrownObject (Some "NotAllowedError"))) st in
  error st' = Some MSG_PERMISSION_DENIED /\ isEnabled st' = false.
Proof. split; reflexivity. Qed.

End MicrophoneSpec.

(* ===================================================================== *)
(** * Properties of the recorder *)
(* ===================================================================== *)

Module RecorderSpec.

Import Recorder.

(** The engine exists and is in the inactive state. *)
Definition engineInactive (st : State) : Prop :=
  exists r, recorderRef st = Some r /\ state r = inactive.

Lemma engineInactive_dec (st : State) :
  {engineInactive st} + {~ engineInactive st}.
Proof.
  unfold engineInactive.
  destruct (recorderRef st) as [r|].
  - destruct (state r) eqn:E.
    + left. exists r. split; [reflexivity | exact E].
    + right. intros (r' & Hr & Hs). injection Hr as <-. congruence.
    + right. intros (r' & Hr & Hs). injection Hr as <-. congruence.
  - right. intros (r' & Hr & _). discriminate.
Qed.

Lemma cons_neq_self {A : Type} (x : A) (l : list A) : x :: l <> l.
Proof.
  intros H. apply (f_equal (@List.length A)) in H. simpl in H. lia.
Qed.

Lemma start_inactive (startThrows : bool) (st : State) (r : MediaRecorder) :
  recorderRef st = Some r -> state r = inactive ->
  start startThrows st =
  if startThrows
  then mkState (isRecording st) false [] (Some "Recording start failed"%string)
               (Some r) (CallStart 100 :: calls st)
  else mkState (isRecording st) false [] None
               (Some (mkEngine recording (onstop r) (Some 100%Z)))
               (CallStart 100 :: calls st).
Proof.
  intros Hr Hs. unfold start. rewrite Hr, Hs.
  destruct startThrows; reflexivity.
Qed.

Lemma start_otherwise (startThrows : bool) (st : State) :
  ~ engineInactive st ->
  start startThrows st =
  mkState (isRecording st) false [] None (recorderRef st) (calls st).
Proof.
  intros Hn. unfold start.
  destruct (recorderRef st) as [r|] eqn:Er; [|reflexivity].
  destruct (state r) eqn:Es; try reflexivity.
  exfalso. apply Hn. exists r. split; [exact Er | exact Es].
Qed.

(** C7: whatever the recorder state, [start] leaves an empty chunk list, a
    cleared pause flag and no trace of the prior error (the error field is
    empty afterwards unless the engine's own [start] was invoked and threw,
    in which case it holds the start-failure message); the engine's [start]
    is invoked, with the 100 ms interval, if and only if the engine exists
    and is inactive; otherwise no engine method is invoked and the engine is
    left as it was. *)
Theorem start_clears_and_starts_inactive_engine
  (startThrows : bool) (st : State) :
  let st' := start startThrows st in
  chunks st' = [] /\
  isPaused st' = false /\
  isRecording st' = isRecording st /\
  ((error st' = None /\ ~ (engineInactive st /\ startThrows = true)) \/
   (error st' = Some "Recording start failed"%string /\
    engineInactive st /\ startThrows = true)) /\
  (calls st' = CallStart 100 :: calls st <-> engineInactive st) /\
  (engineInactive st -> startThrows = false ->
   exists r, recorderRef st = Some r /\
             recorderRef st' = Some (mkEngine recording (onstop r) (Some 100%Z))) /\
  (~ engineInactive st ->
   calls st' = calls st /\ recorderRef st' = recorderRef st).
Proof.
  intros st'. subst st'.
  destruct (engineInactive_dec st) as [Hidle|Hbusy].
  - pose proof Hidle as (r & Hr & Hs).
    rewrite (start_inactive startThrows st r Hr Hs).
    destruct startThrows; cbn.
    + split; [reflexivity|]. split; [reflexivity|]. split; [reflexivity|].
      split; [right; auto|].
      split; [split; auto|].
      split; [intros _ Hf; discriminate|].
      intros Hn. contradiction.
    + split; [reflexivity|]. split; [reflexivity|]. split; [reflexivity|].
      split; [left; split; [reflexivity | intros (_ & Hf); discriminate]|].
      split; [split; auto|].
      split; [intros _ _; exists r; auto|].
      intros Hn. contradiction.
  - rewrite (start_otherwise startThrows st Hbusy). cbn.
    split; [reflexivity|]. split; [reflexivity|]. split; [reflexivity|].
    split; [left; split; [reflexivity | intros (Hi & _); contradiction]|].
    split.
    { split; [|intros Hi; contradiction].
      intros H. symmetry in H. apply cons_neq_self in H. contradiction. }
    split; [intros Hi; contradiction|].
    intros _. split; reflexivity.
Qed.

(** ** stop *)

(** On an idle engine (absent or inactive) the executor resolves the promise
    with [null] at once and changes nothing; no path of [stop] rejects. *)
Lemma stop_idle_resolves_null
  (captured : list Blob) (mimeType : string) (st : State) :
  idle st = true -> stop captured mimeType st = (st, Resolved None).
Proof.
  unfold idle, stop. intros Hidle.
  destruct (recorderRef st) as [r|]; [|reflexivity].
  destruct (state r); try reflexivity; discriminate.
Qed.

(** On an active engine the promise is resolved by the engine's stop event,
    with a blob of the target type built from the chunks the closure
    captured; the chunk flushed by the engine on the way is appended to the
    state, not to the blob. *)
Lemma stop_active_resolves_captured
  (mimeType : string) (flushed : Blob) (st : State) :
  idle st = false ->
  exists st',
    stopAndSettle mimeType flushed st
      = (st', Resolved (Some (newBlob (chunks st) mimeType))) /\
    chunks st' = chunks (onDataAvailable flushed st) /\
    isRecording st' = isRecording st.
Proof.
  unfold idle, stopAndSettle, stop, stopTask, fireStop, onDataAvailable.
  intros Hidle.
  destruct (recorderRef st) as [r|] eqn:Er; [|discriminate].
  destruct (state r) eqn:Es; [discriminate| |];
    destruct (0 <? size flushed)%nat; cbn; eexists; repeat split.
Qed.

(** What the resolved blob lacks: whenever the engine flushes a non-empty
    chunk on stop, the delivered chunks are the captured ones followed by
    the flushed one, and the blob holds the bytes of the captured ones
    only. *)
Lemma stop_active_misses_flush
  (mimeType : string) (flushed : Blob) (st : State) :
  idle st = false ->
  (0 < size flushed)%nat ->
  exists st' blob,
    stopAndSettle mimeType flushed st = (st', Resolved (Some blob)) /\
    type blob = mimeType /\
    chunks st' = chunks st ++ [flushed] /\
    bytes (newBlob (chunks st') mimeType) = bytes blob ++ bytes flushed.
Proof.
  intros Hidle Hsize.
  unfold idle in Hidle.
  unfold stopAndSettle, stop, stopTask, fireStop, onDataAvailable.
  apply Nat.ltb_lt in Hsize.
  destruct (recorderRef st) as [r|] eqn:Er; [|discriminate].
  destruct (state r) eqn:Es; [discriminate| |];
    rewrite Hsize; cbn;
    (eexists; eexists; split; [reflexivity|]);
    (split; [reflexivity|]); (split; [reflexivity|]);
    unfold newBlob; cbn;
    rewrite map_app, concat_app; cbn; rewrite app_nil_r; reflexivity.
Qed.

(** A recorder as the hook itself builds it: the engine is attached and
    started, its start event has been handled, and one chunk [c1] has been
    delivered and rendered. *)
Definition recordingWith (c1 : Blob) : State :=
  onDataAvailable c1 (onStart (start false (attach initial))).

(** C4, the failing input: the engine is recording, one chunk has been
    delivered, [stop] of the latest render is called, and the engine flushes
    a second, non-empty chunk before its stop event.  The promise resolves
    with a blob of the target type that holds only the first chunk, while
    the delivered chunks are both. *)
Theorem stop_blob_omits_flushed_chunk :
  let c1 := mkBlob [26; 69]%Z "audio/webm" in
  let c2 := mkBlob [223; 163]%Z "audio/webm" in
  let st := recordingWith c1 in
  idle st = false /\
  chunks st = [c1] /\
  exists st' blob,
    stopAndSettle "audio/webm" c2 st = (st', Resolved (Some blob)) /\
    type blob = "audio/webm"%string /\
    chunks st' = [c1; c2] /\
    bytes blob = [26; 69]%Z /\
    bytes (newBlob (chunks st') "audio/webm") = [26; 69; 223; 163]%Z /\
    blob <> newBlob (chunks st') "audio/webm".
Proof.
  cbv zeta. split; [reflexivity|]. split; [reflexivity|].
  eexists. eexists.
  split; [reflexivity|].
  repeat split; try reflexivity.
  cbv. discriminate.
Qed.

(** The hook's flags after a stop through [stop]: the handler that would
    have cleared them was replaced, so [isRecording] keeps its value. *)
Example stop_leaves_isRecording :
  let c1 := mkBlob [26; 69]%Z "audio/webm" in
  let c2 := mkBlob [223; 163]%Z "audio/webm" in
  isRecording (fst (stopAndSettle "audio/webm" c2 (recordingWith c1))) = true.
Proof. reflexivity. Qed.

Lemma stop_idle_resolves_null_witness :
  idle initial = true /\
  stop [] "audio/webm" initial = (initial, Resolved None).
Proof.
  split; [reflexivity|].
  exact (stop_idle_resolves_null [] "audio/webm" initial eq_refl).
Defined.

Lemma stop_active_misses_flush_witness :
  let c1 := mkBlob [26; 69]%Z "audio/webm" in
  let c2 := mkBlob [223; 163]%Z "audio/webm" in
  idle (recordingWith c1) = false /\
  (0 < size c2)%nat /\
  exists st' blob,
    stopAndSettle "audio/webm" c2 (recordingWith c1)
      = (st', Resolved (Some blob)) /\
    type blob = "audio/webm"%string /\
    chunks st' = chunks (recordingWith c1) ++ [c2] /\
    bytes (newBlob (chunks st') "audio/webm") = bytes blob ++ bytes c2.
Proof.
  cbv zeta.
  assert (Hsize : (0 < size (mkBlob [223; 163]%Z "audio/webm"))%nat)
    by (cbn; lia).
  split; [reflexivity|]. split; [exact Hsize|].
  exact (stop_active_misses_flush "audio/webm"
           (mkBlob [223; 163]%Z "audio/webm")
           (recordingWith (mkBlob [26; 69]%Z "audio/webm"))
           eq_refl Hsize).
Defined.

End RecorderSpec.

(* ===================================================================== *)
(** * Properties of the recording timer *)
(* ===================================================================== *)

Module TimerSpec.

Import Timer.
Local Open Scope Z_scope.

(** The pause that is open after a stretch of session history. *)
Fixpoint openPause (open : option Z) (h : list SessionEvent) : option Z :=
  match h with
  | [] => open
  | Pause p :: h' => openPause (Some p) h'
  | Resume _ :: h' => openPause None h'
  | Fire _ :: h' => openPause open h'
  end.

Definition isOpen (open : option Z) : bool :=
  match open with Some _ => true | None => false end.

(** What the refs hold in each phase of a session that was activated at
    [t0] and has accumulated [P] milliseconds of completed pauses. *)
Definition phase (t0 P : Z) (open : option Z) (st : State) : Prop :=
  startTimeRef st = Some t0 /\
  pausedTimeRef st = P /\
  pauseStartTimeRef st = open /\
  intervalRef st = negb (isOpen open).

Lemma endsPaused_openPause (open : option Z) (h : list SessionEvent) :
  endsPaused (isOpen open) h = isOpen (openPause open h).
Proof.
  revert open. induction h as [|e h IH]; intros open; [reflexivity|].
  destruct e as [p|r|t]; simpl.
  - apply (IH (Some p)).
  - apply (IH None).
  - apply IH.
Qed.

Lemma activation_phase (t0 : Z) :
  phase t0 0 None (step initial (Render true false t0)).
Proof. repeat split. Qed.

Lemma pause_phase (t0 P p : Z) (st : State) :
  phase t0 P None st -> phase t0 P (Some p) (step st (Render true true p)).
Proof.
  intros (Hs & Hp & Ho & Hi).
  unfold step, cleanup, effect, clearIntervalRef. cbn.
  rewrite Ho. cbn. repeat split; assumption.
Qed.

Lemma resume_phase (t0 P p r : Z) (st : State) :
  phase t0 P (Some p) st ->
  phase t0 (P + (r - p)) None (step st (Render true false r)).
Proof.
  intros (Hs & Hp & Ho & Hi).
  unfold step, cleanup, effect, clearIntervalRef. cbn.
  rewrite Hs, Ho. cbn. rewrite Hp. repeat split.
Qed.

Lemma fire_phase (t0 P t : Z) (open : option Z) (st : State) :
  phase t0 P open st -> phase t0 P open (step st (Tick t)).
Proof.
  intros (Hs & Hp & Ho & Hi).
  unfold step, tick. rewrite Hs.
  destruct (intervalRef st) eqn:Ei; [|repeat split; congruence].
  destruct (t0 =? 0); repeat split; cbn; congruence.
Qed.

(** The refs follow the session: the start is the activation time, the
    accumulated pause is the sum of the completed pause durations. *)
Lemma history_phase (t0 : Z) (h : list SessionEvent) :
  forall (P : Z) (open : option Z) (st : State),
    phase t0 P open st ->
    alternates (isOpen open) h = true ->
    phase t0 (P + completedPause open h) (openPause open h)
          (run st (map toEvent h)).
Proof.
  induction h as [|e h IH]; intros P open st Hph Halt.
  - simpl. rewrite Z.add_0_r. exact Hph.
  - destruct e as [p|r|t]; simpl in Halt |- *.
    + destruct open as [q|]; [discriminate|].
      apply (IH P (Some p)); [apply pause_phase; exact Hph | exact Halt].
    + destruct open as [q|]; [|discriminate].
      rewrite Z.add_assoc.
      apply (IH (P + (r - q)) None); [apply resume_phase; exact Hph | exact Halt].
    + apply (IH P open); [apply fire_phase; exact Hph | exact Halt].
Qed.

Lemma session_phase (s : Session) :
  alternates false (history s) = true ->
  phase (activatedAt s) (completedPause None (history s))
        (openPause None (history s)) (run initial (events s)).
Proof.
  intros Halt. unfold events, run. simpl fold_left.
  pose proof (history_phase (activatedAt s) (history s) 0 None
                (step initial (Render true false (activatedAt s)))
                (activation_phase _) Halt) as H.
  exact H.
Qed.

(** While a pause is open no firing changes the state: the elapsed time is
    frozen. *)
Lemma tick_frozen_while_paused (s : Session) (now : Z) :
  alternates false (history s) = true ->
  endsPaused false (history s) = true ->
  tick now (run initial (events s)) = run initial (events s).
Proof.
  intros Halt Hend.
  destruct (session_phase s Halt) as (_ & _ & _ & Hi).
  change false with (isOpen None) in Hend.
  rewrite endsPaused_openPause in Hend. rewrite Hend in Hi.
  unfold tick. rewrite Hi. reflexivity.
Qed.

(** "Elapsed equals T - P to within one tick interval", read on the numbers:
    the reported whole seconds, in milliseconds, differ from the active time
    by at most the interval period. *)
Definition withinOneTickInterval (s : Session) (now : Z) : Prop :=
  let st := tick now (run initial (events s)) in
  let T := now - activatedAt s in
  let P := completedPause None (history s) in
  Z.abs (1000 * elapsedTime st - (T - P)) <= TICK_MS.

(** C1, as stated, fails in its last part: in a session activated at 1000,
    paused from 3000 to 6000 and read by the firing at 8900, the wall time is
    7900 ms and the pause 3000 ms, so the active time is 4900 ms; the
    reported value is 4 whole seconds, 900 ms away, more than one tick
    interval (100 ms). *)
Lemma elapsed_truncation_exceeds_tick_interval :
  let s := mkSession 1000 [Fire 1100; Pause 3000; Resume 6000] in
  wellFormed s /\
  endsPaused false (history s) = false /\
  completedPause None (history s) = 3000 /\
  elapsedTime (tick 8900 (run initial (events s))) = 4 /\
  ~ withinOneTickInterval s 8900.
Proof.
  cbv zeta. split; [split; [cbn; lia | reflexivity]|].
  split; [reflexivity|]. split; [reflexivity|]. split; [reflexivity|].
  unfold withinOneTickInterval. vm_compute. intros H. apply H. reflexivity.
Qed.

(** C1, amended: in every session (one activation at a positive clock value,
    then pauses and resumes in alternation) that is running, the start ref
    holds the activation time, the pause ref holds the sum [P] of the
    completed pause durations, and a firing at clock value [now] reports
    floor(((now - start) - P) / 1000); with [T = now - start] the reported
    whole seconds satisfy 1000 * elapsed <= T - P < 1000 * elapsed + 1000,
    that is, the report equals T - P truncated to whole seconds (within one
    second, not within one tick interval). *)
Theorem tick_reports_truncated_active_time (s : Session) (now : Z) :
  wellFormed s ->
  endsPaused false (history s) = false ->
  let st := run initial (events s) in
  let T := now - activatedAt s in
  let P := completedPause None (history s) in
  startTimeRef st = Some (activatedAt s) /\
  pausedTimeRef st = P /\
  elapsedTime (tick now st) = (T - P) / 1000 /\
  1000 * elapsedTime (tick now st) <= T - P
    < 1000 * elapsedTime (tick now st) + 1000.
Proof.
  intros (Hpos & Halt) Hend st T P.
  destruct (session_phase s Halt) as (Hs & Hp & _ & Hi).
  fold st in Hs, Hp, Hi. fold P in Hp.
  change false with (isOpen None) in Hend.
  rewrite endsPaused_openPause in Hend. rewrite Hend in Hi. simpl in Hi.
  clearbody st.
  assert (Htick : elapsedTime (tick now st) = (T - P) / 1000).
  { unfold tick. rewrite Hi, Hs.
    destruct (Z.eqb_spec (activatedAt s) 0) as [E|_]; [lia|].
    cbn. rewrite Hp. reflexivity. }
  split; [exact Hs|]. split; [exact Hp|]. split; [exact Htick|].
  rewrite Htick.
  pose proof (Z.div_mod (T - P) 1000 ltac:(lia)) as Hdm.
  pose proof (Z.mod_pos_bound (T - P) 1000 ltac:(lia)) as Hb.
  lia.
Qed.

Lemma tick_reports_truncated_active_time_witness :
  let s := mkSession 1000 [Fire 1100; Pause 3000; Resume 6000; Fire 6100] in
  wellFormed s /\
  endsPaused false (history s) = false /\
  elapsedTime (tick 8000 (run initial (events s))) = (8000 - 1000 - 3000) / 1000.
Proof.
  cbv zeta.
  assert (Hwf : wellFormed
                  (mkSession 1000 [Fire 1100; Pause 3000; Resume 6000; Fire 6100]))
    by (split; [cbn; lia | reflexivity]).
  split; [exact Hwf|]. split; [reflexivity|].
  exact (proj1 (proj2 (proj2
    (tick_reports_truncated_active_time
       (mkSession 1000 [Fire 1100; Pause 3000; Resume 6000; Fire 6100])
       8000 Hwf eq_refl)))).
Defined.

Lemma tick_frozen_while_paused_witness :
  let s := mkSession 1000 [Fire 1100; Pause 3000] in
  alternates false (history s) = true /\
  endsPaused false (history s) = true /\
  tick 3100 (run initial (events s)) = run initial (events s).
Proof.
  cbv zeta. split; [reflexivity|]. split; [reflexivity|].
  exact (tick_frozen_while_paused
           (mkSession 1000 [Fire 1100; Pause 3000]) 3100 eq_refl eq_refl).
Defined.

End TimerSpec.

(* ===================================================================== *)
(** * Properties of the orchestrator: error merging *)
(* ===================================================================== *)

Module ErrorSpec.

Import Orchestrator.

Lemma or_truthy_left (a b : option string) :
  Js.truthy a = true -> Js.or a b = a.
Proof. unfold Js.or. intros ->. reflexivity. Qed.

Lemma or_falsy_left (a b : option string) :
  Js.truthy a = false -> Js.or a b = b.
Proof. unfold Js.or. intros ->. reflexivity. Qed.

(** Running the effect again changes nothing: the update of [error] that the
    effect itself causes does not start a loop. *)
Lemma mergeEffect_idempotent (st : Errors) :
  mergeEffect (mergeEffect st) = mergeEffect st.
Proof.
  unfold mergeEffect, combinedError, Js.or. cbn. f_equal.
  destruct (Js.truthy (micError st)) eqn:Em; rewrite ?Em; [reflexivity|].
  destruct (Js.truthy (recorderError st)) eqn:Er; rewrite ?Er; [reflexivity|].
  destruct (Js.truthy (error st)) eqn:Ee; rewrite ?Ee; reflexivity.
Qed.

Definition payload (e : ErrorEvent) : option string :=
  match e with
  | MicrophoneError v | RecorderError v | LocalError v => v
  end.

(** Last-write-wins, as a reading of the event history alone: the value of
    the most recent event that carried a non-empty error, whichever source
    it came from. *)
Definition lastWriteWins (es : list ErrorEvent) : option string :=
  fold_left (fun shown e => if Js.truthy (payload e) then payload e else shown)
            es None.

(** C3, as stated, fails: the microphone reports an error first and the
    recorder reports one afterwards; the facade keeps showing the
    microphone's error, while last-write-wins would show the recorder's. *)
Lemma microphone_error_outranks_later_recorder_error :
  let es := [MicrophoneError (Some Microphone.MSG_PERMISSION_DENIED);
             RecorderError (Some "Recording error"%string)] in
  error (errorRun noErrors es) = Some Microphone.MSG_PERMISSION_DENIED /\
  lastWriteWins es = Some "Recording error"%string /\
  error (errorRun noErrors es) <> lastWriteWins es.
Proof.
  cbv zeta. split; [reflexivity|]. split; [reflexivity|].
  vm_compute. discriminate.
Qed.

(** C3, amended: after every dependency update the externally visible error
    is the first non-empty value among the microphone error, the recorder
    error and the facade's own (previously stored or locally raised) error,
    in that fixed order: a non-empty microphone error is shown whatever the
    recorder reported and whenever it did, a non-empty recorder error is
    shown only while the microphone error is empty, and with both empty the
    stored error stays; the effect is then stable. *)
Theorem merged_error_fixed_priority (st : Errors) (e : ErrorEvent) :
  let written := write st e in
  let st' := errorStep st e in
  micError st' = micError written /\
  recorderError st' = recorderError written /\
  (Js.truthy (micError written) = true -> error st' = micError written) /\
  (Js.truthy (micError written) = false ->
   Js.truthy (recorderError written) = true ->
   error st' = recorderError written) /\
  (Js.truthy (micError written) = false ->
   Js.truthy (recorderError written) = false ->
   error st' = error written) /\
  mergeEffect st' = st'.
Proof.
  intros written st'. subst st'. unfold errorStep. fold written.
  split; [reflexivity|]. split; [reflexivity|].
  split; [|split; [|split]].
  - intros Hm. cbn. unfold combinedError.
    rewrite (or_truthy_left (micError written)) by exact Hm.
    apply or_truthy_left. exact Hm.
  - intros Hm Hr. cbn. unfold combinedError.
    rewrite (or_falsy_left (micError written)) by exact Hm.
    apply or_truthy_left. exact Hr.
  - intros Hm Hr. cbn. unfold combinedError.
    rewrite (or_falsy_left (micError written)) by exact Hm.
    apply or_falsy_left. exact Hr.
  - apply mergeEffect_idempotent.
Qed.

(** Over a whole history the visible error is always the merged one. *)
Lemma errorRun_settled (es : list ErrorEvent) (st : Errors) :
  mergeEffect st = st ->
  mergeEffect (errorRun st es) = errorRun st es.
Proof.
  revert st. induction es as [|e es IH]; intros st Hst; [exact Hst|].
  simpl. apply IH. apply mergeEffect_idempotent.
Qed.

End ErrorSpec.

(* ===================================================================== *)
(** * Properties of the orchestrator: object URLs *)
(* ===================================================================== *)

Module UrlSpec.

Import Orchestrator.

Definition olist (o : option Url) : list Url :=
  match o with
  | Some u => [u]
  | None => []
  end.

(** The two halves of the effect body: revoke what the ref holds, and mint a
    new URL into the ref. *)
Definition revoked (st : Urls) : Urls :=
  mkUrls (recordedBlob st) None None (nextUrl st) (revokePrevious st).

Definition created (st : Urls) : Urls :=
  let url := nextUrl st in
  mkUrls (recordedBlob st) (Some url) (Some url) (S url)
         (CreateObjectURL url :: registry st).

Lemma urlEffect_split (st : Urls) :
  urlEffect st =
  match recordedBlob st with
  | Some _ => created (revoked st)
  | None => revoked st
  end.
Proof.
  unfold urlEffect, created, revoked.
  destruct (recordedBlob st) eqn:E; cbn; rewrite ?E; reflexivity.
Qed.

(** What holds between the hook's ref and the platform's registry. *)
Record Inv (st : Urls) : Prop := mkInv {
  inv_live : liveUrls (registry st) = olist (previousUrlRef st);
  inv_one : atMostOneLive (registry st);
  inv_audio : audioUrl st = previousUrlRef st;
  inv_current : forall u, previousUrlRef st = Some u -> minted u (registry st);
  inv_fresh : forall u, minted u (registry st) -> u < nextUrl st;
  inv_rev0 : forall u, previousUrlRef st = Some u ->
                       revocations u (registry st) = 0;
  inv_rev1 : forall u, minted u (registry st) -> previousUrlRef st <> Some u ->
                       revocations u (registry st) = 1;
  inv_unminted : forall u, ~ minted u (registry st) ->
                           revocations u (registry st) = 0
}.

Lemma minted_revoke (u p : Url) (calls : list UrlCall) :
  minted u (RevokeObjectURL p :: calls) <-> minted u calls.
Proof.
  unfold minted. simpl. split; [intros [H|H]; [discriminate | exact H] | auto].
Qed.

Lemma minted_create (u n : Url) (calls : list UrlCall) :
  minted u (CreateObjectURL n :: calls) <-> u = n \/ minted u calls.
Proof.
  unfold minted. simpl. split.
  - intros [H|H]; [left; congruence | right; exact H].
  - intros [H|H]; [left; congruence | right; exact H].
Qed.

Lemma revocations_revoke (u p : Url) (calls : list UrlCall) :
  revocations u (RevokeObjectURL p :: calls) =
  (if Nat.eqb u p then 1 else 0) + revocations u calls.
Proof.
  unfold revocations. simpl. destruct (Nat.eqb u p); reflexivity.
Qed.

Lemma revocations_create (u n : Url) (calls : list UrlCall) :
  revocations u (CreateObjectURL n :: calls) = revocations u calls.
Proof. reflexivity. Qed.

Lemma remove_single (u : Url) : List.remove Nat.eq_dec u [u] = [].
Proof. simpl. destruct (Nat.eq_dec u u); [reflexivity | congruence]. Qed.

Lemma Inv_mounted : Inv mounted.
Proof.
  constructor; simpl; try reflexivity; try exact I;
    try (intros u H; discriminate); try (intros u H; contradiction);
    try (intros u H _; contradiction).
Qed.

Lemma Inv_revoked (st : Urls) : Inv st -> Inv (revoked st).
Proof.
  intros [Hlive Hone Haudio Hcur Hfresh Hr0 Hr1 Hun].
  unfold revoked, revokePrevious.
  destruct (previousUrlRef st) as [p|] eqn:Ep.
  - constructor; cbn [registry previousUrlRef audioUrl nextUrl recordedBlob liveUrls atMostOneLive].
    + rewrite Hlive. apply remove_single.
    + split; [rewrite Hlive, remove_single; simpl; lia | exact Hone].
    + reflexivity.
    + intros u H. discriminate.
    + intros u H. apply Hfresh. apply minted_revoke in H. exact H.
    + intros u H. discriminate.
    + intros u Hm _. apply minted_revoke in Hm.
      rewrite revocations_revoke.
      destruct (Nat.eqb_spec u p) as [->|Hne].
      * rewrite (Hr0 p eq_refl). reflexivity.
      * rewrite (Hr1 u Hm) by congruence. reflexivity.
    + intros u Hm. rewrite revocations_revoke.
      assert (Hm' : ~ minted u (registry st))
        by (intros H; apply Hm; apply minted_revoke; exact H).
      rewrite (Hun u Hm').
      destruct (Nat.eqb_spec u p) as [->|Hne]; [|reflexivity].
      exfalso. apply Hm'. apply Hcur. reflexivity.
  - constructor; cbn [registry previousUrlRef audioUrl nextUrl recordedBlob liveUrls atMostOneLive];
      try assumption; try reflexivity;
      try (intros u H; discriminate);
      try (intros u Hm _; apply Hr1; [exact Hm | congruence]).
Qed.

Lemma Inv_created (st : Urls) :
  Inv st -> previousUrlRef st = None -> Inv (created st).
Proof.
  intros [Hlive Hone Haudio Hcur Hfresh Hr0 Hr1 Hun] Ep.
  rewrite Ep in Hlive. simpl in Hlive.
  assert (Hnew : ~ minted (nextUrl st) (registry st)).
  { intros H. apply Hfresh in H. lia. }
  unfold created. constructor; cbn [registry previousUrlRef audioUrl nextUrl recordedBlob liveUrls atMostOneLive].
  - rewrite Hlive. reflexivity.
  - split; [rewrite Hlive; simpl; lia | exact Hone].
  - reflexivity.
  - intros u H. injection H as <-. apply minted_create. left. reflexivity.
  - intros u H. apply minted_create in H. destruct H as [->|H]; [lia|].
    apply Hfresh in H. lia.
  - intros u H. injection H as <-. rewrite revocations_create.
    apply Hun. exact Hnew.
  - intros u Hm Hne. rewrite revocations_create.
    apply minted_create in Hm. destruct Hm as [->|Hm]; [congruence|].
    apply Hr1; [exact Hm | congruence].
  - intros u Hm. rewrite revocations_create. apply Hun.
    intros H. apply Hm. apply minted_create. right. exact H.
Qed.

Lemma Inv_urlEffect (st : Urls) : Inv st -> Inv (urlEffect st).
Proof.
  intros Hinv. rewrite urlEffect_split.
  destruct (recordedBlob st) as [b|].
  - apply Inv_created; [apply Inv_revoked; exact Hinv | reflexivity].
  - apply Inv_revoked. exact Hinv.
Qed.

Lemma Inv_setRecordedBlob (b : option BlobRef) (st : Urls) :
  Inv st -> Inv (setRecordedBlob b st).
Proof.
  intros Hinv. unfold setRecordedBlob.
  destruct (sameBlob b (recordedBlob st)); [exact Hinv|].
  apply Inv_urlEffect. destruct Hinv. constructor; assumption.
Qed.

Lemma Inv_apply (st : Urls) (op : Operation) : Inv st -> Inv (apply st op).
Proof.
  intros Hinv. destruct op; simpl; try exact Hinv;
    apply Inv_setRecordedBlob; exact Hinv.
Qed.

Lemma Inv_applyAll (ops : list Operation) (st : Urls) :
  Inv st -> Inv (applyAll st ops).
Proof.
  revert st. induction ops as [|op ops IH]; intros st Hinv; [exact Hinv|].
  simpl. apply IH. apply Inv_apply. exact Hinv.
Qed.

Lemma atMostOneLive_earlier (later earlier : list UrlCall) :
  atMostOneLive (later ++ earlier) -> atMostOneLive earlier.
Proof.
  induction later as [|c later IH]; [auto|].
  simpl. intros (_ & H). apply IH. exact H.
Qed.

(** Before every minting the registry holds no live URL. *)
Lemma mint_follows_revoke (calls later earlier : list UrlCall) (u : Url) :
  atMostOneLive calls ->
  calls = later ++ CreateObjectURL u :: earlier ->
  liveUrls earlier = [].
Proof.
  intros Hone ->. apply atMostOneLive_earlier in Hone.
  destruct Hone as (Hlen & _). simpl in Hlen.
  destruct (liveUrls earlier); [reflexivity | simpl in Hlen; lia].
Qed.

(** C5: after every sequence of facade operations on a mounted facade, at
    every point of the registry's history at most one object URL was live;
    the live URL, if any, is the one the facade exposes; every minting
    happened with no URL live (the previous one had been revoked first);
    no URL was revoked twice, and every minted URL other than the current
    one was revoked exactly once; after disposal no URL is live and every
    minted URL has been revoked exactly once. *)
Theorem object_url_lifecycle (ops : list Operation) :
  let st := applyAll mounted ops in
  let final := unmount st in
  atMostOneLive (registry st) /\
  liveUrls (registry st) = olist (audioUrl st) /\
  (forall later u earlier,
      registry st = later ++ CreateObjectURL u :: earlier ->
      liveUrls earlier = []) /\
  (forall u, revocations u (registry st) <= 1) /\
  (forall u, minted u (registry st) -> audioUrl st <> Some u ->
             revocations u (registry st) = 1) /\
  atMostOneLive (registry final) /\
  liveUrls (registry final) = [] /\
  (forall u, minted u (registry final) ->
             revocations u (registry final) = 1).
Proof.
  intros st final.
  assert (Hinv : Inv st) by (apply Inv_applyAll, Inv_mounted).
  assert (Hfin : Inv (revoked st)) by (apply Inv_revoked; exact Hinv).
  assert (Hreg : registry final = registry (revoked st)) by reflexivity.
  clearbody st.
  destruct Hinv as [Hlive Hone Haudio Hcur Hfresh Hr0 Hr1 Hun].
  destruct Hfin as [Flive Fone _ _ _ _ Fr1 _].
  rewrite Hreg. cbn [previousUrlRef revoked] in Flive, Fr1.
  split; [exact Hone|].
  split; [rewrite Haudio; exact Hlive|].
  split.
  { intros later u earlier Hsplit.
    apply (mint_follows_revoke (registry st) later earlier u Hone Hsplit). }
  split.
  { intros u.
    destruct (in_dec (fun a b : UrlCall =>
                        ltac:(decide equality; apply Nat.eq_dec))
                     (CreateObjectURL u) (registry st)) as [Hm|Hm].
    - destruct (previousUrlRef st) as [p|] eqn:Ep.
      + destruct (Nat.eq_dec p u) as [->|Hne].
        * rewrite (Hr0 u eq_refl). lia.
        * rewrite (Hr1 u Hm) by congruence. lia.
      + rewrite (Hr1 u Hm) by congruence. lia.
    - rewrite (Hun u Hm). lia. }
  split.
  { intros u Hm Hne. apply Hr1; [exact Hm|]. rewrite <- Haudio. exact Hne. }
  split; [exact Fone|].
  split; [exact Flive|].
  intros u Hm. apply Fr1; [exact Hm | discriminate].
Qed.

(** A run with two recordings: the first URL is revoked before the second is
    minted, and disposal revokes the second. *)
Example object_url_two_recordings :
  registry (unmount (applyAll mounted
                       [StartRecording; StopRecording (Some 7);
                        StartRecording; StopRecording (Some 8)]))
  = [RevokeObjectURL 1; CreateObjectURL 1; RevokeObjectURL 0; CreateObjectURL 0].
Proof. reflexivity. Qed.

End UrlSpec.

(* ===================================================================== *)
(** * Further properties of the utilities *)
(* ===================================================================== *)

Module UtilsMore.

Import Utils.
Local Open Scope R_scope.

(** Normalizing twice with the same threshold is normalizing once. *)
Theorem normalizeAudioLevel_idempotent (level minLevel : R) :
  normalizeAudioLevel (normalizeAudioLevel level minLevel) minLevel
  = normalizeAudioLevel level minLevel.
Proof.
  unfold normalizeAudioLevel.
  pose proof (LevelSpec.clamp_range level) as Hc.
  set (c := Rmax 0 (Rmin 1 level)) in *.
  destruct (Rlt_dec c minLevel) as [Hlt|Hge].
  - rewrite Rmin_right by lra. rewrite Rmax_left by lra.
    destruct (Rlt_dec 0 minLevel); reflexivity.
  - rewrite (Rmin_right 1 c) by lra. rewrite (Rmax_right 0 c) by lra.
    destruct (Rlt_dec c minLevel); [contradiction | reflexivity].
Qed.

(** A louder input never gets a lower normalized level. *)
Theorem normalizeAudioLevel_monotone (level1 level2 minLevel : R) :
  level1 <= level2 ->
  normalizeAudioLevel level1 minLevel <= normalizeAudioLevel level2 minLevel.
Proof.
  intros Hle. unfold normalizeAudioLevel.
  pose proof (LevelSpec.clamp_range level1) as H1.
  pose proof (LevelSpec.clamp_range level2) as H2.
  assert (Hc : Rmax 0 (Rmin 1 level1) <= Rmax 0 (Rmin 1 level2)).
  { apply Rmax_lub.
    - apply Rmax_l.
    - apply Rle_trans with (Rmin 1 level2); [|apply Rmax_r].
      apply Rmin_glb; [apply Rmin_l|].
      apply Rle_trans with level1; [apply Rmin_r | exact Hle]. }
  destruct (Rlt_dec (Rmax 0 (Rmin 1 level1)) minLevel);
    destruct (Rlt_dec (Rmax 0 (Rmin 1 level2)) minLevel); lra.
Qed.

Lemma normalizeAudioLevel_monotone_witness :
  1 / 4 <= 1 / 2 /\
  normalizeAudioLevel (1 / 4) (1 / 100) <= normalizeAudioLevel (1 / 2) (1 / 100).
Proof.
  assert (H : 1 / 4 <= 1 / 2) by lra.
  split; [exact H|].
  exact (normalizeAudioLevel_monotone (1 / 4) (1 / 2) (1 / 100) H).
Defined.

(** Below one hundred hours the timer's text has exactly eight characters,
    so the display never changes width. *)
Theorem formatTime_fixed_width (s : Z) :
  (0 <= s < 360000)%Z -> String.length (Timer.formatTime s) = 8%nat.
Proof.
  intros Hs.
  destruct (FormatSpec.fields_decompose s ltac:(lia)) as (_ & Hh & Hm & Hsec).
  destruct (FormatSpec.fields_nonneg s ltac:(lia)) as (Em & Esec).
  assert (Hh' : (s / 3600 < 100)%Z) by (apply Z.div_lt_upper_bound; lia).
  unfold Timer.formatTime. rewrite Em, Esec.
  rewrite !FormatSpec.pad2_two_digits by lia.
  reflexivity.
Qed.

Lemma formatTime_fixed_width_witness :
  (0 <= 3723 < 360000)%Z /\ String.length (Timer.formatTime 3723) = 8%nat.
Proof.
  assert (H : (0 <= 3723 < 360000)%Z) by lia.
  split; [exact H|].
  exact (formatTime_fixed_width 3723 H).
Defined.

End UtilsMore.

(* ===================================================================== *)
(** * Further properties of the level meter *)
(* ===================================================================== *)

Module MeterMore.

Import Meter.
Local Open Scope R_scope.

Lemma sumSquares_loop_constant (d : Z) (data : list Z) (acc : R) :
  Forall (fun x => x = d) data ->
  fold_left (fun a x => a + normalizedSample x * normalizedSample x) data acc
  = acc + INR (List.length data) * (normalizedSample d * normalizedSample d).
Proof.
  intros Hall. revert acc.
  induction Hall as [|x data Hx _ IH]; intros acc.
  - simpl. lra.
  - subst x. simpl fold_left. rewrite IH.
    change (List.length (d :: data)) with (S (List.length data)).
    rewrite S_INR. lra.
Qed.

(** A buffer that holds one value [d] throughout (a constant offset of the
    waveform) is metered at the distance of [d] from the midpoint, relative
    to full scale: |d - 128| / 128. *)
Theorem tick_level_constant_buffer (d : Z) (data : list Z) (st : State) :
  Forall (fun x => x = d) data ->
  data <> [] ->
  level (tick data st) = Num (Rabs (IZR d - 128) / 128).
Proof.
  intros Hall Hne.
  destruct data as [|x data']; [congruence|].
  set (data := x :: data') in *.
  change (level (tick data st))
    with (Num (sqrt (sumSquares data / INR (List.length data)))).
  f_equal. unfold sumSquares.
  rewrite (sumSquares_loop_constant d data 0 Hall).
  pose proof (LevelSpec.length_pos_INR data Hne) as Hn.
  replace ((0 + INR (List.length data)
                * (normalizedSample d * normalizedSample d))
           / INR (List.length data))
    with (Rsqr (normalizedSample d)) by (unfold Rsqr; field; lra).
  rewrite sqrt_Rsqr_abs. unfold normalizedSample.
  unfold Rdiv. rewrite Rabs_mult. f_equal.
  apply Rabs_pos_eq.
  left. apply Rinv_0_lt_compat. lra.
Qed.

Lemma tick_level_constant_buffer_witness :
  Forall (fun x => x = 0%Z) [0%Z; 0%Z] /\
  [0%Z; 0%Z] <> [] /\
  level (tick [0%Z; 0%Z] initial) = Num (Rabs (IZR 0 - 128) / 128).
Proof.
  assert (Hall : Forall (fun x => x = 0%Z) [0%Z; 0%Z]) by (repeat constructor).
  assert (Hne : [0%Z; 0%Z] <> []) by discriminate.
  split; [exact Hall|]. split; [exact Hne|].
  exact (tick_level_constant_buffer 0 [0%Z; 0%Z] initial Hall Hne).
Defined.

(** The published level does not depend on the order of the samples in the
    buffer. *)
Lemma sumSquares_loop_shift (data : list Z) (acc : R) :
  fold_left (fun a x => a + normalizedSample x * normalizedSample x) data acc
  = acc + sumSquares data.
Proof.
  unfold sumSquares. revert acc.
  induction data as [|x data IH]; intros acc.
  - simpl. lra.
  - simpl fold_left. rewrite IH.
    rewrite (IH (0 + normalizedSample x * normalizedSample x)). lra.
Qed.

Theorem tick_level_order_independent (data data' : list Z) (st : State) :
  Permutation.Permutation data data' ->
  level (tick data st) = level (tick data' st).
Proof.
  intros Hperm.
  assert (Hsum : sumSquares data = sumSquares data').
  { induction Hperm as [|x l l' _ IH|x y l|l l' l'' _ IH1 _ IH2].
    - reflexivity.
    - unfold sumSquares. simpl fold_left.
      rewrite !sumSquares_loop_shift. rewrite IH. reflexivity.
    - unfold sumSquares. simpl fold_left.
      rewrite !sumSquares_loop_shift. lra.
    - congruence. }
  pose proof (Permutation.Permutation_length Hperm) as Hlen.
  destruct data as [|x l]; destruct data' as [|y l'];
    try discriminate; [reflexivity|].
  change (Num (sqrt (sumSquares (x :: l) / INR (List.length (x :: l))))
          = Num (sqrt (sumSquares (y :: l') / INR (List.length (y :: l'))))).
  rewrite Hsum, Hlen. reflexivity.
Qed.

Lemma tick_level_order_independent_witness :
  Permutation.Permutation [0%Z; 128%Z; 255%Z] [255%Z; 0%Z; 128%Z] /\
  level (tick [0%Z; 128%Z; 255%Z] initial)
  = level (tick [255%Z; 0%Z; 128%Z] initial).
Proof.
  assert (Hperm : Permutation.Permutation [0%Z; 128%Z; 255%Z]
                                          [255%Z; 0%Z; 128%Z]).
  { apply Permutation.Permutation_sym.
    apply (Permutation.Permutation_cons_app [0%Z; 128%Z] [] 255%Z).
    apply Permutation.Permutation_refl. }
  split; [exact Hperm|].
  exact (tick_level_order_independent _ _ initial Hperm).
Defined.

(** ** From the effect to the published levels *)

Lemma rms_of_bytes (data : list Z) :
  Forall isByte data -> data <> [] ->
  exists r : R, rms data = Num r /\ 0 <= r <= 1.
Proof.
  intros Hall Hne.
  destruct data as [|d data']; [congruence|].
  set (data := d :: data') in *.
  exists (sqrt (sumSquares data / INR (List.length data))).
  split; [reflexivity|].
  destruct (LevelSpec.sumSquares_range data Hall) as (Hlo & Hhi).
  pose proof (LevelSpec.length_pos_INR data Hne) as Hn.
  set (n := INR (List.length data)) in *.
  assert (Hq : 0 <= sumSquares data / n <= 1).
  { unfold Rdiv. split.
    - apply Rmult_le_pos; [exact Hlo|]. left. apply Rinv_0_lt_compat, Hn.
    - apply Rmult_le_reg_r with (r := n); [exact Hn|].
      rewrite Rmult_assoc, Rinv_l by lra. lra. }
  split; [apply sqrt_pos|].
  rewrite <- sqrt_1. apply sqrt_le_1; lra.
Qed.

Lemma Forall_firstn_bytes (n : nat) (l : list Z) :
  Forall isByte l -> Forall isByte (firstn n l).
Proof.
  intros Hall. revert n.
  induction Hall as [|x l Hx _ IH]; intros [|n]; simpl; constructor; auto.
Qed.

Lemma Forall_skipn_bytes (n : nat) (l : list Z) :
  Forall isByte l -> Forall isByte (skipn n l).
Proof.
  intros Hall. revert n.
  induction Hall as [|x l Hx Hl IH]; intros [|n]; simpl; auto.
Qed.

(** Refilling keeps the buffer's length and keeps it a buffer of bytes. *)
Lemma getByteTimeDomainData_keeps (waveform data : list Z) :
  Forall isByte waveform -> Forall isByte data ->
  List.length (MeterSetup.getByteTimeDomainData waveform data)
    = List.length data /\
  Forall isByte (MeterSetup.getByteTimeDomainData waveform data).
Proof.
  intros Hw Hd. unfold MeterSetup.getByteTimeDomainData. split.
  - rewrite length_app, length_firstn, length_skipn. lia.
  - apply Forall_app. split.
    + apply Forall_firstn_bytes. exact Hw.
    + apply Forall_skipn_bytes. exact Hd.
Qed.

(** What holds of the meter's cell from the effect on. *)
Definition metering (n : nat) (cell : State * list Z) : Prop :=
  List.length (snd cell) = n /\
  Forall isByte (snd cell) /\
  exists r : R, level (fst cell) = Num r /\ 0 <= r <= 1.

Lemma metering_frames (n : nat) (waveforms : list (list Z)) :
  (0 < n)%nat ->
  Forall (Forall isByte) waveforms ->
  forall cell, metering n cell ->
               metering n (MeterSetup.frames waveforms cell).
Proof.
  intros Hn Hall. induction Hall as [|w ws Hw _ IH]; intros cell Hcell.
  - exact Hcell.
  - apply IH. destruct Hcell as (Hlen & Hbytes & _).
    destruct (getByteTimeDomainData_keeps w (snd cell) Hw Hbytes)
      as (Hlen' & Hbytes').
    unfold MeterSetup.frame, metering. cbn [fst snd].
    split; [congruence|]. split; [exact Hbytes'|].
    apply rms_of_bytes; [exact Hbytes'|].
    intros Hnil. rewrite Hnil in Hlen'. simpl in Hlen'. lia.
Qed.

(** Once the effect has set up the analyser with an [fftSize] the platform
    accepts, the buffer it allocates has [fftSize / 2], at least 16,
    entries; and whatever byte waveforms the following frames read, the
    buffer keeps that length and the published level is a real number in
    [0, 1]: the division by [data.length] never is [0 / 0]. *)
Theorem effect_buffer_meters_every_frame
  (fftSize : nat) (st st' : State) (data : list Z)
  (waveforms : list (list Z)) :
  MeterSetup.effect fftSize st = Some (st', data) ->
  Forall (Forall isByte) waveforms ->
  List.length data = Nat.div fftSize 2 /\
  (16 <= List.length data)%nat /\
  List.length (snd (MeterSetup.frames waveforms (st', data)))
    = List.length data /\
  exists r : R,
    level (fst (MeterSetup.frames waveforms (st', data))) = Num r /\
    0 <= r <= 1.
Proof.
  intros Heffect Hw.
  unfold MeterSetup.effect in Heffect.
  destruct (MeterSetup.acceptsFftSize fftSize) eqn:Hacc; [|discriminate].
  injection Heffect as <- <-.
  assert (Hlen : List.length
                   (MeterSetup.newUint8Array (frequencyBinCount fftSize))
                 = Nat.div fftSize 2)
    by apply repeat_length.
  assert (Hmin : (16 <= Nat.div fftSize 2)%nat).
  { unfold MeterSetup.acceptsFftSize, MeterSetup.acceptedFftSizes in Hacc.
    cbn [existsb map] in Hacc.
    repeat (apply orb_true_iff in Hacc;
            destruct Hacc as [Hacc|Hacc];
            [apply Nat.eqb_eq in Hacc; subst fftSize;
             apply Nat.div_le_lower_bound; [lia|];
             apply (Nat.pow_le_mono_r 2 5); lia|]).
    discriminate. }
  assert (Hcell : metering (Nat.div fftSize 2)
                    (effect st,
                     MeterSetup.newUint8Array (frequencyBinCount fftSize))).
  { split; [exact Hlen|]. split.
    - apply Forall_forall. intros x Hx.
      apply repeat_spec in Hx. subst x. unfold isByte. lia.
    - exists 0. split; [reflexivity | lra]. }
  destruct (metering_frames (Nat.div fftSize 2) waveforms ltac:(lia) Hw _ Hcell)
    as (Hlen' & _ & Hlevel).
  split; [exact Hlen|]. split; [rewrite Hlen; exact Hmin|].
  split; [rewrite Hlen; exact Hlen'|]. exact Hlevel.
Qed.

Lemma effect_buffer_meters_every_frame_witness :
  MeterSetup.effect 32 initial
    = Some (effect initial, MeterSetup.newUint8Array 16) /\
  Forall (Forall isByte) [[0%Z; 255%Z]] /\
  exists r : R,
    level (fst (MeterSetup.frames [[0%Z; 255%Z]]
                  (effect initial, MeterSetup.newUint8Array 16))) = Num r /\
    0 <= r <= 1.
Proof.
  assert (Hw : Forall (Forall isByte) [[0%Z; 255%Z]])
    by (repeat constructor; unfold isByte; lia).
  split; [reflexivity|]. split; [exact Hw|].
  exact (proj2 (proj2 (proj2
    (effect_buffer_meters_every_frame 32 initial (effect initial)
       (MeterSetup.newUint8Array 16) [[0%Z; 255%Z]] eq_refl Hw)))).
Defined.

End MeterMore.

(* ===================================================================== *)
(** * Properties of the format selection and the device detection *)
(* ===================================================================== *)

Module FormatsSpec.

Import Formats.
Local Open Scope string_scope.

(** With [isTypeSupported] at hand the filter-then-search of the code is a
    single search: the best format is the first MIME type of the priority
    list that the platform supports, and [audio/webm] when the platform
    supports none of them. *)
Lemma getBestAudioFormat_first_supported (supports : string -> bool) :
  getBestAudioFormat (MediaRecorderWith (Some supports)) =
  Returned match find supports priority with
           | Some m => m
           | None => "audio/webm"
           end.
Proof.
  unfold getBestAudioFormat, getSupportedAudioFormats, priority,
    SUPPORTED_AUDIO_FORMATS.
  cbn [filterOutcome isSupported find mimeType].
  destruct (supports "audio/webm") eqn:E1;
    destruct (supports "audio/mp4") eqn:E2;
    destruct (supports "audio/wav") eqn:E3;
    destruct (supports "audio/ogg") eqn:E4; reflexivity.
Qed.

Lemma find_first {A : Type} (p : A -> bool) (l : list A) (m : A) :
  find p l = Some m ->
  p m = true /\
  exists before after,
    l = (before ++ m :: after)%list /\ forall x, In x before -> p x = false.
Proof.
  induction l as [|a l IH]; [discriminate|].
  simpl. destruct (p a) eqn:Ea.
  - intros H. injection H as <-. split; [exact Ea|].
    exists [], l. split; [reflexivity | intros x []].
  - intros H. destruct (IH H) as (Hm & before & after & Hl & Hb).
    split; [exact Hm|].
    exists (a :: before), after. split; [rewrite Hl; reflexivity|].
    intros x [<-|Hx]; [exact Ea | apply Hb; exact Hx].
Qed.


End FormatsSpec.

Module DeviceSpec.

Import Device.
Local Open Scope string_scope.

Lemma prefix_foldString (pattern text : string) :
  String.prefix pattern text = true ->
  String.prefix (foldString pattern) (foldString text) = true.
Proof.
  revert text. induction pattern as [|a pattern IH]; intros text H.
  - destruct text; reflexivity.
  - destruct text as [|b text]; [discriminate|].
    simpl in H |- *.
    destruct (ascii_dec a b) as [->|]; [|discriminate].
    destruct (ascii_dec (foldCase b) (foldCase b)); [|congruence].
    apply IH. exact H.
Qed.

(** A match that respects case is also a match that ignores it. *)
Lemma contains_ignoring_case (pattern text : string) :
  contains pattern text = true -> containsIgnoreCase pattern text = true.
Proof.
  unfold containsIgnoreCase.
  induction text as [|c text IH].
  - cbn [contains foldString]. rewrite !orb_false_r.
    apply (prefix_foldString pattern "").
  - cbn [contains foldString]. intros H.
    apply orb_true_iff in H. apply orb_true_iff.
    destruct H as [H|H].
    + left. apply (prefix_foldString pattern (String c text)). exact H.
    + right. apply IH. exact H.
Qed.

(** Whatever the user agent: a device detected as iOS or as Android is also
    detected as mobile, and Safari and Chrome are never detected together. *)
Theorem getDeviceInfo_consistent (ua : string) :
  let info := getDeviceInfo ua in
  (isIOS info = true -> isMobile info = true) /\
  (isAndroid info = true -> isMobile info = true) /\
  (isSafari info = true -> isChrome info = false) /\
  (isChrome info = true -> isSafari info = false).
Proof.
  cbn [getDeviceInfo isIOS isAndroid isMobile isSafari isChrome existsb].
  repeat split.
  - intros H. rewrite !orb_false_r in H.
    repeat (apply orb_true_iff in H; destruct H as [H|H]);
      apply contains_ignoring_case in H; rewrite H;
      rewrite ?orb_true_r; reflexivity.
  - intros H. apply contains_ignoring_case in H. rewrite H. reflexivity.
  - intros H. apply andb_true_iff in H. destruct H as (_ & H).
    apply negb_true_iff in H. rewrite H. reflexivity.
  - intros H. apply andb_true_iff in H. destruct H as (H & _).
    rewrite H. apply andb_false_r.
Qed.

End DeviceSpec.

(* ===================================================================== *)
(** * Properties of the microphone manager: stream ownership *)
(* ===================================================================== *)

Module MicrophoneLifeSpec.

Import Microphone MicrophoneLife.

(** [enable] is its synchronous start followed by its continuation. *)
Lemma enable_begin_settle (outcome : GetUserMedia) (st : State) :
  enable outcome st = afterRequest outcome (beforeRequest st).
Proof. destruct outcome; reflexivity. Qed.

Definition isSome {A : Type} (o : option A) : bool :=
  match o with Some _ => true | None => false end.

(** What the manager keeps true between calls, for the streams [acq] handed
    out so far: the ref and the state agree, the enabled flag tells whether a
    stream is held, and every stream handed out is either the one held (and
    running) or has been stopped exactly once. *)
Record Owned (acq : list MediaStream) (st : State) : Prop := mkOwned {
  own_ref : streamRef st = stream st;
  own_flag : isEnabled st = isSome (stream st);
  own_held : forall s, streamRef st = Some s ->
                       In s acq /\ ~ In s (stopped st);
  own_released : forall s, In s acq -> streamRef st <> Some s ->
                           count_occ Nat.eq_dec (stopped st) s = 1;
  own_known : forall s, In s (stopped st) -> In s acq
}.

Lemma Owned_initial : Owned [] initial.
Proof.
  constructor; simpl; try reflexivity.
  - intros s H. discriminate.
  - intros s [].
  - intros s [].
Qed.

Lemma count_occ_cons_once (c s : MediaStream) (l : list MediaStream) :
  ~ In c l ->
  count_occ Nat.eq_dec (c :: l) s =
  if Nat.eq_dec c s then 1 else count_occ Nat.eq_dec l s.
Proof.
  intros Hc. simpl. destruct (Nat.eq_dec c s) as [<-|]; [|reflexivity].
  rewrite (proj1 (count_occ_not_In Nat.eq_dec l c) Hc). reflexivity.
Qed.

(** Releasing what is held: the common part of [enable]'s teardown and of
    [disable]. *)
Lemma Owned_release (acq : list MediaStream) (st st' : State) :
  Owned acq st ->
  streamRef st' = None -> stream st' = None -> isEnabled st' = false ->
  stopped st' = match streamRef st with
                | Some c => c :: stopped st
                | None => stopped st
                end ->
  Owned acq st'.
Proof.
  intros [Href Hflag Hheld Hrel Hknown] Eref Estream Eflag Estopped.
  constructor.
  - congruence.
  - rewrite Eflag, Estream. reflexivity.
  - intros s H. congruence.
  - intros s Hin _. rewrite Estopped.
    destruct (streamRef st) as [c|] eqn:Ec.
    + destruct (Hheld c eq_refl) as (_ & Hnot).
      rewrite (count_occ_cons_once c s _ Hnot).
      destruct (Nat.eq_dec c s) as [<-|Hne]; [reflexivity|].
      apply Hrel; [exact Hin | congruence].
    + apply Hrel; [exact Hin | discriminate].
  - intros s Hin. rewrite Estopped in Hin.
    destruct (streamRef st) as [c|] eqn:Ec; [|apply Hknown; exact Hin].
    destruct Hin as [<-|Hin]; [apply (Hheld c eq_refl) | apply Hknown; exact Hin].
Qed.

Lemma Owned_beforeRequest (acq : list MediaStream) (st : State) :
  Owned acq st -> Owned acq (beforeRequest st).
Proof.
  intros Hown. apply (Owned_release acq st); try exact Hown.
  - unfold beforeRequest. destruct (streamRef st); reflexivity.
  - unfold beforeRequest. destruct (streamRef st) eqn:E; [reflexivity|].
    cbn. rewrite <- (own_ref _ _ Hown). exact E.
  - unfold beforeRequest. destruct (streamRef st) eqn:E; [reflexivity|].
    cbn. rewrite (own_flag _ _ Hown), <- (own_ref _ _ Hown), E. reflexivity.
  - unfold beforeRequest. destruct (streamRef st); reflexivity.
Qed.

Lemma Owned_disable (acq : list MediaStream) (st : State) :
  Owned acq st -> Owned acq (disable st).
Proof.
  intros Hown. apply (Owned_release acq st); try exact Hown; reflexivity.
Qed.

Lemma Owned_call (acq : list MediaStream) (st : State) (c : Call) :
  Owned acq st ->
  NoDup (acq ++ acquired [c]) ->
  Owned (acq ++ acquired [c]) (call st c).
Proof.
  intros Hown Hnd.
  destruct c as [[s|err]|]; cbn [call acquired] in *.
  - (* a stream is handed out *)
    rewrite enable_begin_settle.
    pose proof (Owned_beforeRequest acq st Hown) as Hb.
    assert (Eref : streamRef (beforeRequest st) = None)
      by (unfold beforeRequest; destruct (streamRef st); reflexivity).
    assert (Hfresh : ~ In s acq).
    { apply NoDup_remove_2 in Hnd. rewrite app_nil_r in Hnd. exact Hnd. }
    destruct Hb as [_ _ _ Hrel Hknown].
    constructor; cbn.
    + reflexivity.
    + reflexivity.
    + intros x H. injection H as <-. split.
      * apply in_or_app. right. left. reflexivity.
      * intros Hin. apply Hfresh, Hknown. exact Hin.
    + intros x Hin Hne. apply in_app_or in Hin.
      destruct Hin as [Hin|[<-|[]]]; [|congruence].
      apply Hrel; [exact Hin | congruence].
    + intros x Hin. apply in_or_app. left. apply Hknown. exact Hin.
  - (* the request is rejected *)
    rewrite app_nil_r in *. rewrite enable_begin_settle.
    pose proof (Owned_beforeRequest acq st Hown) as Hb.
    assert (Eref : streamRef (beforeRequest st) = None)
      by (unfold beforeRequest; destruct (streamRef st); reflexivity).
    destruct Hb as [Href Hflag Hheld Hrel Hknown].
    constructor; cbn.
    + exact Href.
    + rewrite <- Href, Eref. reflexivity.
    + exact Hheld.
    + exact Hrel.
    + exact Hknown.
  - rewrite app_nil_r. apply Owned_disable. exact Hown.
Qed.

Lemma acquired_app (cs cs' : list Call) :
  acquired (cs ++ cs') = acquired cs ++ acquired cs'.
Proof.
  induction cs as [|[[s|err]|] cs IH]; simpl; rewrite ?IH; reflexivity.
Qed.

Lemma Owned_calls (cs : list Call) :
  forall (acq : list MediaStream) (st : State),
    Owned acq st ->
    NoDup (acq ++ acquired cs) ->
    Owned (acq ++ acquired cs) (calls st cs).
Proof.
  induction cs as [|c cs IH]; intros acq st Hown Hnd.
  - simpl. rewrite app_nil_r. exact Hown.
  - change (c :: cs) with ([c] ++ cs) in *.
    rewrite acquired_app, app_assoc in *.
    unfold calls. rewrite fold_left_app. simpl fold_left at 2.
    apply IH; [|exact Hnd].
    apply Owned_call; [exact Hown|].
    apply NoDup_app_remove_r in Hnd. exact Hnd.
Qed.

(** For calls made one after the other, with the platform handing out a new
    stream each time: at most one stream is held; the enabled flag tells
    whether one is; every other stream handed out has had its tracks stopped
    exactly once; and after the unmount cleanup that holds for all of them. *)
Theorem sequential_calls_leave_one_stream (cs : list Call) :
  NoDup (acquired cs) ->
  let st := calls initial cs in
  streamRef st = stream st /\
  isEnabled st = isSome (stream st) /\
  (forall s, stream st = Some s -> In s (acquired cs) /\ ~ In s (stopped st)) /\
  (forall s, In s (acquired cs) -> stream st <> Some s ->
             count_occ Nat.eq_dec (stopped st) s = 1) /\
  (forall s, In s (acquired cs) ->
             count_occ Nat.eq_dec (stopped (unmount st)) s = 1).
Proof.
  intros Hnd st.
  pose proof (Owned_calls cs [] initial Owned_initial Hnd) as Hown.
  simpl app in Hown. fold st in Hown. clearbody st.
  destruct Hown as [Href Hflag Hheld Hrel Hknown].
  split; [exact Href|]. split; [exact Hflag|].
  split; [intros s H; apply Hheld; congruence|].
  split; [intros s Hin Hne; apply Hrel; [exact Hin | congruence]|].
  intros s Hin. cbn [unmount stopped].
  destruct (streamRef st) as [c|] eqn:Ec.
  - destruct (Hheld c eq_refl) as (_ & Hnot).
    rewrite (count_occ_cons_once c s _ Hnot).
    destruct (Nat.eq_dec c s) as [<-|Hne]; [reflexivity|].
    apply Hrel; [exact Hin | congruence].
  - apply Hrel; [exact Hin | discriminate].
Qed.

Lemma sequential_calls_leave_one_stream_witness :
  let cs := [Enable (Fulfilled 1); Enable (Fulfilled 2);
             Enable (Rejected ThrownNull); Enable (Fulfilled 3)] in
  NoDup (acquired cs) /\
  stream (calls initial cs) = Some 3 /\
  stopped (calls initial cs) = [2; 1] /\
  forall s, In s (acquired cs) ->
            count_occ Nat.eq_dec (stopped (unmount (calls initial cs))) s = 1.
Proof.
  cbv zeta.
  assert (Hnd : NoDup (acquired [Enable (Fulfilled 1); Enable (Fulfilled 2);
                                 Enable (Rejected ThrownNull);
                                 Enable (Fulfilled 3)])).
  { cbn. repeat constructor; simpl; intuition discriminate. }
  split; [exact Hnd|]. split; [reflexivity|]. split; [reflexivity|].
  exact (proj2 (proj2 (proj2 (proj2
    (sequential_calls_leave_one_stream _ Hnd))))).
Defined.

(** Two [enable] calls that overlap (the second starts before the first has
    settled) leak the first stream: it is not the one held, it has not been
    stopped, and the unmount cleanup does not stop it either. *)
Theorem overlapping_enables_leak_first_stream (a b : MediaStream) (st : State) :
  streamRef st = None ->
  ~ In a (stopped st) ->
  a <> b ->
  let st' := steps st [Begin; Begin; Settle (Fulfilled a); Settle (Fulfilled b)] in
  stream st' = Some b /\
  isEnabled st' = true /\
  ~ In a (stopped st') /\
  ~ In a (stopped (unmount st')).
Proof.
  intros Href Hnot Hne. cbn [steps fold_left step].
  unfold beforeRequest at 2. rewrite Href.
  unfold beforeRequest. cbn. rewrite Href. cbn.
  repeat split; try exact Hnot.
  intros [H|H]; [congruence | contradiction].
Qed.

Lemma overlapping_enables_leak_first_stream_witness :
  streamRef initial = None /\
  ~ In 1 (stopped initial) /\
  1 <> 2 /\
  ~ In 1 (stopped (unmount
       (steps initial [Begin; Begin; Settle (Fulfilled 1); Settle (Fulfilled 2)]))).
Proof.
  assert (Hnot : ~ In 1 (stopped initial)) by (intros []).
  assert (Hne : 1 <> 2) by discriminate.
  split; [reflexivity|]. split; [exact Hnot|]. split; [exact Hne|].
  exact (proj2 (proj2 (proj2
    (overlapping_enables_leak_first_stream 1 2 initial eq_refl Hnot Hne)))).
Defined.

End MicrophoneLifeSpec.

(* ===================================================================== *)
(** * Further properties of the recording timer *)
(* ===================================================================== *)

Module TimerMore.

Import Timer TimerSpec.
Local Open Scope Z_scope.

Definition timeOf (e : SessionEvent) : Z :=
  match e with
  | Pause t | Resume t | Fire t => t
  end.

(** The clock values of the events do not go back, starting from [last]. *)
Fixpoint chronological (last : Z) (h : list SessionEvent) : Prop :=
  match h with
  | [] => True
  | e :: h' => last <= timeOf e /\ chronological (timeOf e) h'
  end.

(** The active time at clock value [last]: wall time since the start, less
    the completed pauses, less the part of an open pause. *)
Definition activeTime (t0 P : Z) (open : option Z) (last : Z) : Z :=
  match open with
  | None => last - t0 - P
  | Some p => p - t0 - P
  end.

(** The report never runs ahead of the active time. *)
Definition behind (t0 P : Z) (open : option Z) (last : Z) (st : State) : Prop :=
  phase t0 P open st /\
  (forall p, open = Some p -> p <= last) /\
  0 <= 1000 * elapsedTime st <= activeTime t0 P open last.

Lemma behind_step (t0 P last : Z) (open : option Z) (st : State)
                  (e : SessionEvent) :
  behind t0 P open last st ->
  alternates (isOpen open) [e] = true ->
  last <= timeOf e ->
  behind t0 (P + completedPause open [e]) (openPause open [e]) (timeOf e)
         (step st (toEvent e)) /\
  elapsedTime st <= elapsedTime (step st (toEvent e)).
Proof.
  intros (Hph & Hopen & Hlo & Hhi) Halt Hlast.
  pose proof Hph as (Hs & Hp & Ho & Hi).
  destruct e as [p|r|t]; cbn [timeOf toEvent completedPause openPause] in *.
  - (* pause *)
    destruct open as [q|]; [discriminate|].
    rewrite Z.add_0_r.
    pose proof (pause_phase t0 P p st Hph) as Hph'.
    assert (He : elapsedTime (step st (Render true true p)) = elapsedTime st).
    { unfold step, cleanup, effect, clearIntervalRef. cbn. rewrite Ho. reflexivity. }
    split; [|lia].
    split; [exact Hph'|]. split; [intros p' H; injection H as <-; lia|].
    rewrite He. unfold activeTime in *. lia.
  - (* resume *)
    destruct open as [q|]; [|discriminate].
    rewrite Z.add_0_r.
    pose proof (resume_phase t0 P q r st Hph) as Hph'.
    assert (He : elapsedTime (step st (Render true false r)) = elapsedTime st).
    { unfold step, cleanup, effect, clearIntervalRef. cbn.
      rewrite Hs, Ho. reflexivity. }
    pose proof (Hopen q eq_refl) as Hq.
    split; [|lia].
    split; [exact Hph'|]. split; [intros p' H; discriminate|].
    rewrite He. unfold activeTime in *. lia.
  - (* the interval fires *)
    rewrite Z.add_0_r.
    pose proof (fire_phase t0 P t open st Hph) as Hph'.
    assert (Hcases :
              elapsedTime (step st (Tick t)) = elapsedTime st \/
              (open = None /\
               elapsedTime (step st (Tick t)) = (t - t0 - P) / 1000)).
    { unfold step, tick. rewrite Hi, Hs.
      destruct open as [q|]; cbn [isOpen negb]; [left; reflexivity|].
      destruct (t0 =? 0); [left; reflexivity|].
      right. split; [reflexivity|]. cbn. rewrite Hp. reflexivity. }
    destruct Hcases as [He|(-> & He)].
    + split; [|lia].
      split; [exact Hph'|].
      split; [intros p' H; specialize (Hopen p' H); lia|].
      rewrite He. unfold activeTime in *. destruct open; lia.
    + unfold activeTime in *.
      pose proof (Z.div_mod (t - t0 - P) 1000 ltac:(lia)) as Hdm.
      pose proof (Z.mod_pos_bound (t - t0 - P) 1000 ltac:(lia)) as Hb.
      assert (Hge : elapsedTime st <= (t - t0 - P) / 1000).
      { apply Z.div_le_lower_bound; lia. }
      split; [|lia].
      split; [exact Hph'|]. split; [intros p' H; discriminate|].
      rewrite He. unfold activeTime. lia.
Qed.

Lemma behind_history (t0 : Z) (h : list SessionEvent) :
  forall (P last : Z) (open : option Z) (st : State),
    behind t0 P open last st ->
    alternates (isOpen open) h = true ->
    chronological last h ->
    0 <= elapsedTime st <= elapsedTime (run st (map toEvent h)).
Proof.
  induction h as [|e h IH]; intros P last open st Hb Halt Hchrono.
  - simpl. destruct Hb as (_ & _ & Hlo & _). lia.
  - destruct Hchrono as (Hlast & Hchrono).
    assert (Halt1 : alternates (isOpen open) [e] = true
                    /\ alternates (isOpen (openPause open [e])) h = true).
    { destruct e as [p|r|t]; destruct open as [q|]; simpl in Halt |- *;
        try discriminate; split; try reflexivity; exact Halt. }
    destruct Halt1 as (Ha1 & Ha2).
    destruct (behind_step t0 P last open st e Hb Ha1 Hlast) as (Hb' & Hle).
    specialize (IH _ _ _ _ Hb' Ha2 Hchrono).
    simpl. destruct Hb as (_ & _ & Hlo & _). lia.
Qed.

Lemma behind_prefix (t0 : Z) (h1 h2 : list SessionEvent) :
  forall (P last : Z) (open : option Z) (st : State),
    behind t0 P open last st ->
    alternates (isOpen open) (h1 ++ h2) = true ->
    chronological last (h1 ++ h2) ->
    exists P' last' open',
      behind t0 P' open' last' (run st (map toEvent h1)) /\
      alternates (isOpen open') h2 = true /\
      chronological last' h2.
Proof.
  induction h1 as [|e h1 IH]; intros P last open st Hb Halt Hchrono.
  - exists P, last, open. simpl. auto.
  - simpl app in Halt, Hchrono. destruct Hchrono as (Hlast & Hchrono).
    assert (Halt1 : alternates (isOpen open) [e] = true
                    /\ alternates (isOpen (openPause open [e])) (h1 ++ h2) = true).
    { destruct e as [p|r|t]; destruct open as [q|]; simpl in Halt |- *;
        try discriminate; split; try reflexivity; exact Halt. }
    destruct Halt1 as (Ha1 & Ha2).
    destruct (behind_step t0 P last open st e Hb Ha1 Hlast) as (Hb' & _).
    exact (IH _ _ _ _ Hb' Ha2 Hchrono).
Qed.

Lemma behind_activation (t0 : Z) (st : State) :
  elapsedTime st = 0 -> startTimeRef st = None -> pauseStartTimeRef st = None ->
  pausedTimeRef st = 0 ->
  behind t0 0 None t0 (step st (Render true false t0)).
Proof.
  intros He Hs Ho Hp.
  unfold behind, phase, activeTime, step, cleanup, effect, clearIntervalRef.
  cbn. rewrite Hs. cbn. rewrite He, Ho, Hp.
  repeat split; try lia. intros p H. discriminate.
Qed.

(** With a clock that does not go back, the reported elapsed time of a
    session never is negative and never decreases: whatever pauses, resumes
    and interval firings follow, the report after them is at least the
    report before them. *)
Theorem elapsed_never_decreases (t0 : Z) (h1 h2 : list SessionEvent) :
  alternates false (h1 ++ h2) = true ->
  chronological t0 (h1 ++ h2) ->
  0 <= elapsedTime (run initial (events (mkSession t0 h1)))
    <= elapsedTime (run initial (events (mkSession t0 (h1 ++ h2)))).
Proof.
  intros Halt Hchrono.
  unfold events, run. cbn [activatedAt history]. simpl fold_left.
  rewrite map_app, fold_left_app.
  pose proof (behind_activation t0 initial eq_refl eq_refl eq_refl eq_refl)
    as Hact.
  destruct (behind_prefix t0 h1 h2 0 t0 None _ Hact Halt Hchrono)
    as (P' & last' & open' & Hb & Halt2 & Hchrono2).
  exact (behind_history t0 h2 P' last' open' _ Hb Halt2 Hchrono2).
Qed.

Lemma elapsed_never_decreases_witness :
  let h1 := [Fire 2100; Pause 3000] in
  let h2 := [Resume 6000; Fire 8000] in
  alternates false (h1 ++ h2) = true /\
  chronological 1000 (h1 ++ h2) /\
  0 <= elapsedTime (run initial (events (mkSession 1000 h1)))
    <= elapsedTime (run initial (events (mkSession 1000 (h1 ++ h2)))).
Proof.
  cbv zeta.
  assert (Hchrono : chronological 1000
            ([Fire 2100; Pause 3000] ++ [Resume 6000; Fire 8000]))
    by (cbn; lia).
  split; [reflexivity|]. split; [exact Hchrono|].
  exact (elapsed_never_decreases 1000 [Fire 2100; Pause 3000]
           [Resume 6000; Fire 8000] eq_refl Hchrono).
Defined.

(** [reset] while the timer is stopped or paused (no interval is armed)
    leaves no debt: the report is 0, and when the next dependency change is
    an activation, the session it starts is timed from its own activation
    with only its own pauses, whatever happened before the reset. *)
Theorem reset_forgets_history (st : State) (s : Session) (now : Z) :
  intervalRef st = false ->
  wellFormed s ->
  endsPaused false (history s) = false ->
  elapsedTime (reset st) = 0 /\
  startTimeRef (run (reset st) (events s)) = Some (activatedAt s) /\
  pausedTimeRef (run (reset st) (events s)) = completedPause None (history s) /\
  elapsedTime (tick now (run (reset st) (events s)))
  = (now - activatedAt s - completedPause None (history s)) / 1000.
Proof.
  intros _ (Hpos & Halt) Hend.
  split; [reflexivity|].
  assert (Hact : phase (activatedAt s) 0 None
                       (step (reset st) (Render true false (activatedAt s))))
    by (repeat split).
  pose proof (history_phase (activatedAt s) (history s) 0 None _ Hact Halt)
    as (Hs & Hp & _ & Hi).
  change false with (isOpen None) in Hend.
  rewrite endsPaused_openPause in Hend. rewrite Hend in Hi. simpl in Hi.
  unfold events, run. simpl fold_left.
  unfold run in Hs, Hp, Hi.
  set (final := fold_left step (map toEvent (history s)) _) in *.
  clearbody final.
  split; [exact Hs|]. split; [rewrite Hp; lia|].
  unfold tick. rewrite Hi, Hs.
  destruct (Z.eqb_spec (activatedAt s) 0) as [E|_]; [lia|].
  cbn. rewrite Hp. reflexivity.
Qed.

Lemma reset_forgets_history_witness :
  let s := mkSession 9000 [Pause 10000; Resume 12000] in
  let before := run initial (events (mkSession 1000 [Pause 3000])) in
  intervalRef before = false /\
  wellFormed s /\
  endsPaused false (history s) = false /\
  elapsedTime (tick 15000 (run (reset before) (events s)))
  = (15000 - 9000 - 2000) / 1000.
Proof.
  cbv zeta.
  assert (Hwf : wellFormed (mkSession 9000 [Pause 10000; Resume 12000]))
    by (split; [cbn; lia | reflexivity]).
  split; [reflexivity|]. split; [exact Hwf|]. split; [reflexivity|].
  exact (proj2 (proj2 (proj2
    (reset_forgets_history
       (run initial (events (mkSession 1000 [Pause 3000])))
       (mkSession 9000 [Pause 10000; Resume 12000]) 15000
       eq_refl Hwf eq_refl)))).
Defined.

(** [reset] while recording goes on is another matter.  The interval keeps
    firing but reports nothing (the start ref is empty), so the report stays
    0; the next pause is recorded, the resume after it becomes the new start
    and leaves that pause's start in place, and the resume after the
    following pause charges everything since the first pause: with pauses at
    [p1] and [p2] and resumes at [r1] and [r2], the pause total is
    [r2 - p1] and not [r2 - p2], and a firing reports
    floor((now - r1 - (r2 - p1)) / 1000), which can be negative. *)
Theorem reset_while_running_charges_stale_pause
  (st : State) (firings : list Z) (p1 r1 p2 r2 now : Z) :
  0 < r1 ->
  let st' := run (reset st)
                 (map Tick firings ++
                  [Render true true p1; Render true false r1;
                   Render true true p2; Render true false r2]) in
  elapsedTime (run (reset st) (map Tick firings)) = 0 /\
  startTimeRef st' = Some r1 /\
  pausedTimeRef st' = r2 - p1 /\
  elapsedTime (tick now st') = (now - r1 - (r2 - p1)) / 1000.
Proof.
  intros Hr st'.
  assert (Hfix : run (reset st) (map Tick firings) = reset st).
  { induction firings as [|t ts IH]; [reflexivity|].
    simpl. unfold run in IH.
    replace (tick t (reset st)) with (reset st); [exact IH|].
    unfold tick, reset. cbn. destruct (intervalRef st); reflexivity. }
  split; [rewrite Hfix; reflexivity|].
  assert (Hfinal : st' = mkState 0 true (Some r1) (0 + (r2 - p1)) None).
  { subst st'. unfold run in *. rewrite fold_left_app, Hfix. reflexivity. }
  rewrite Hfinal. clear Hfinal Hfix st'.
  split; [reflexivity|]. split; [cbn; lia|].
  unfold tick. cbn [intervalRef startTimeRef pausedTimeRef].
  destruct (Z.eqb_spec r1 0) as [E|_]; [lia|].
  cbn [elapsedTime]. f_equal; lia.
Qed.

Lemma reset_while_running_charges_stale_pause_witness :
  0 < 4000 /\
  elapsedTime
    (tick 7050
       (run (reset (run initial [Render true false 1000]))
            (map Tick [1100; 1200] ++
             [Render true true 3000; Render true false 4000;
              Render true true 6000; Render true false 7000])))
  = -1.
Proof.
  assert (Hr : 0 < 4000) by lia.
  split; [exact Hr|].
  exact (proj2 (proj2 (proj2
    (reset_while_running_charges_stale_pause
       (run initial [Render true false 1000]) [1100; 1200]
       3000 4000 6000 7000 7050 Hr)))).
Defined.

Lemma tick_in_running_phase (t0 P now : Z) (st : State) :
  phase t0 P None st -> t0 <> 0 ->
  elapsedTime (tick now st) = (now - t0 - P) / 1000.
Proof.
  intros (Hs & Hp & _ & Hi) Hne. unfold tick. rewrite Hi, Hs. cbn.
  destruct (Z.eqb_spec t0 0) as [E|_]; [contradiction|].
  cbn. rewrite Hp. reflexivity.
Qed.

Lemma stop_restart_phase (t0 P stopAt startAt : Z) (st : State) :
  phase t0 P None st ->
  phase t0 P None
        (step (step st (Render false false stopAt)) (Render true false startAt)).
Proof.
  intros (Hs & Hp & Ho & Hi).
  unfold step, cleanup, effect, clearIntervalRef. cbn.
  rewrite Hs, Ho. repeat split. exact Hp.
Qed.

(** Stopping and starting again without [reset] does not restart the timer:
    the start ref and the pause total are kept, so the report goes on from
    the first activation and counts the stopped interval as recording
    time. *)
Theorem restart_without_reset_keeps_counting
  (s : Session) (stopAt startAt now : Z) :
  wellFormed s ->
  endsPaused false (history s) = false ->
  let st := run initial (events s ++ [Render false false stopAt;
                                       Render true false startAt]) in
  startTimeRef st = Some (activatedAt s) /\
  pausedTimeRef st = completedPause None (history s) /\
  elapsedTime (tick now st)
  = (now - activatedAt s - completedPause None (history s)) / 1000.
Proof.
  intros (Hpos & Halt) Hend st.
  pose proof (session_phase s Halt) as Hph.
  change false with (isOpen None) in Hend.
  rewrite endsPaused_openPause in Hend.
  destruct (openPause None (history s)) as [p|] eqn:Eopen; [discriminate|].
  apply (stop_restart_phase _ _ stopAt startAt) in Hph.
  assert (Hst : st = step (step (run initial (events s))
                                (Render false false stopAt))
                          (Render true false startAt)).
  { subst st. unfold run. rewrite fold_left_app. reflexivity. }
  rewrite Hst. clear Hst st.
  split; [apply Hph|]. split; [apply Hph|].
  apply tick_in_running_phase; [exact Hph | lia].
Qed.

Lemma restart_without_reset_keeps_counting_witness :
  let s := mkSession 1000 [Fire 1100] in
  wellFormed s /\
  endsPaused false (history s) = false /\
  elapsedTime
    (tick 61000 (run initial (events s ++ [Render false false 5000;
                                           Render true false 60000])))
  = 60.
Proof.
  cbv zeta.
  assert (Hwf : wellFormed (mkSession 1000 [Fire 1100]))
    by (split; [cbn; lia | reflexivity]).
  split; [exact Hwf|]. split; [reflexivity|].
  exact (proj2 (proj2
    (restart_without_reset_keeps_counting
       (mkSession 1000 [Fire 1100]) 5000 60000 61000 Hwf eq_refl))).
Defined.

End TimerMore.

(* ===================================================================== *)
(** * Further properties of the recorder *)
(* ===================================================================== *)

Module RecorderMore.

Import Recorder RecorderOps.

(** Whatever the hook is asked to do and whatever event arrives, it makes at
    most one call into the engine, and only a call that does something in
    the engine's current state: it never starts an active engine, pauses one
    that is not recording, resumes one that is not paused, or stops an
    inactive one; without an engine it makes no call.  The effect's cleanup
    stops the engine exactly when it is active. *)
Theorem engine_calls_are_effective (st : State) (op : Op) :
  match recorderRef st with
  | None =>
      calls (apply st op) = calls st /\ calls (detach st) = calls st
  | Some r =>
      (calls (apply st op) = calls st \/
       exists c, calls (apply st op) = c :: calls st /\
                 effective (state r) c = true) /\
      calls (detach st) =
      (if effective (state r) CallStop then CallStop :: calls st else calls st)
  end.
Proof.
  destruct (recorderRef st) as [r|] eqn:Er.
  - split.
    + destruct op; cbn [apply];
        unfold start, pause, resume, stop, reset, onDataAvailable, onStart,
          onPause, onResume, onError, fireStop;
        rewrite ?Er;
        try (destruct startThrows);
        try (destruct (0 <? size data)%nat);
        destruct (state r) eqn:Es; try destruct (onstop r);
        cbn; rewrite ?Es;
        first [ left; reflexivity
              | right; eexists; split; [reflexivity | reflexivity] ].
    + unfold detach. rewrite Er. destruct (state r); reflexivity.
  - split.
    + destruct op; cbn [apply];
        unfold start, pause, resume, stop, reset, onDataAvailable, onStart,
          onPause, onResume, onError, fireStop;
        rewrite ?Er;
        try (destruct (0 <? size data)%nat); reflexivity.
    + unfold detach. rewrite Er. reflexivity.
Qed.

(** The chunks delivered by a sequence of operations and events. *)
Fixpoint delivered (ops : list Op) : list Blob :=
  match ops with
  | [] => []
  | DataAvailable data :: rest => data :: delivered rest
  | _ :: rest => delivered rest
  end.

(** The operations that empty the chunk list. *)
Definition clears (op : Op) : bool :=
  match op with
  | DoStart _ | DoReset => true
  | _ => false
  end.

Lemma chunks_apply (st : State) (op : Op) :
  clears op = false ->
  chunks (apply st op) =
  chunks st ++ filter (fun d => (0 <? size d)%nat) (delivered [op]).
Proof.
  intros Hclear.
  destruct op; try discriminate; cbn [apply delivered filter];
    rewrite ?app_nil_r.
  - unfold pause. destruct (recorderRef st) as [r|]; [|reflexivity].
    destruct (state r); reflexivity.
  - unfold resume. destruct (recorderRef st) as [r|]; [|reflexivity].
    destruct (state r); reflexivity.
  - unfold stop. destruct (recorderRef st) as [r|]; [|reflexivity].
    destruct (state r); reflexivity.
  - unfold onDataAvailable.
    destruct (0 <? size data)%nat; cbn; rewrite ?app_nil_r; reflexivity.
  - reflexivity.
  - reflexivity.
  - reflexivity.
  - reflexivity.
  - unfold fireStop. destruct (recorderRef st) as [r|]; [|reflexivity].
    destruct (onstop r); reflexivity.
Qed.

Lemma delivered_cons (op : Op) (ops : list Op) :
  delivered (op :: ops) = delivered [op] ++ delivered ops.
Proof. destruct op; reflexivity. Qed.

Lemma chunks_applyAll (ops : list Op) :
  forall st,
    forallb (fun op => negb (clears op)) ops = true ->
    chunks (applyAll st ops) =
    chunks st ++ filter (fun d => (0 <? size d)%nat) (delivered ops).
Proof.
  induction ops as [|op ops IH]; intros st Hall.
  - simpl. rewrite app_nil_r. reflexivity.
  - simpl in Hall. apply andb_true_iff in Hall. destruct Hall as (Hop & Hall).
    apply negb_true_iff in Hop.
    change (applyAll st (op :: ops)) with (applyAll (apply st op) ops).
    rewrite (IH _ Hall).
    rewrite (chunks_apply st op Hop).
    rewrite (delivered_cons op ops), filter_app, app_assoc. reflexivity.
Qed.



End RecorderMore.

(* ===================================================================== *)
(** * Further properties of the orchestrator *)
(* ===================================================================== *)

Module FacadeSpec.

Import Orchestrator.

(** Clearing the facade's own error ([setError(null)] in [startRecording]
    and [reset]) cannot clear an error that the microphone or the recorder
    still reports: after the merging effect that error is shown again; the
    field ends up empty only when both sources are empty. *)
Theorem local_clear_keeps_source_errors (st : Errors) :
  let st' := errorStep st (LocalError None) in
  (Js.truthy (micError st) = true -> error st' = micError st) /\
  (Js.truthy (micError st) = false -> Js.truthy (recorderError st) = true ->
   error st' = recorderError st) /\
  (Js.truthy (micError st) = false -> Js.truthy (recorderError st) = false ->
   error st' = None).
Proof.
  cbn. unfold combinedError. cbn.
  repeat split.
  - intros Hm. rewrite (ErrorSpec.or_truthy_left (micError st)) by exact Hm.
    apply ErrorSpec.or_truthy_left. exact Hm.
  - intros Hm Hr. rewrite (ErrorSpec.or_falsy_left (micError st)) by exact Hm.
    apply ErrorSpec.or_truthy_left. exact Hr.
  - intros Hm Hr. rewrite (ErrorSpec.or_falsy_left (micError st)) by exact Hm.
    apply ErrorSpec.or_falsy_left. exact Hr.
Qed.

Lemma stopAndSettle_active
  (mimeType : string) (flushed : Recorder.Blob) (st : Recorder.State) :
  Recorder.idle st = false ->
  exists st',
    Recorder.stopAndSettle mimeType flushed st
      = (st', Recorder.Resolved
                (Some (Recorder.newBlob (Recorder.chunks st) mimeType))) /\
    Recorder.idle st' = true.
Proof.
  unfold Recorder.idle, Recorder.stopAndSettle, Recorder.stop,
    Recorder.stopTask, Recorder.fireStop, Recorder.onDataAvailable.
  intros Hidle.
  destruct (Recorder.recorderRef st) as [r|] eqn:Er; [|discriminate].
  destruct (Recorder.state r) eqn:Es; [discriminate| |];
    destruct (0 <? Recorder.size flushed)%nat; cbn;
    eexists; split; reflexivity.
Qed.

Lemma stopAndSettle_idle
  (mimeType : string) (flushed : Recorder.Blob) (st : Recorder.State) :
  Recorder.idle st = true ->
  Recorder.stopAndSettle mimeType flushed st = (st, Recorder.Resolved None).
Proof.
  unfold Recorder.idle, Recorder.stopAndSettle, Recorder.stop.
  intros Hidle.
  destruct (Recorder.recorderRef st) as [r|]; [|reflexivity].
  destruct (Recorder.state r); try discriminate; reflexivity.
Qed.

(** Stopping twice loses the recording: the first [stopRecording] on an
    active recorder returns the blob and mints its URL; the second finds the
    engine inactive, returns [null] and stores it, so the recorded blob is
    gone and its URL is revoked. *)
Theorem second_stopRecording_discards_recording
  (mimeType : string) (flushed1 flushed2 : Recorder.Blob) (st : Facade.State) :
  Recorder.idle (Facade.recorder st) = false ->
  recordedBlob (Facade.urls st) <> Some (Facade.nextBlob st) ->
  let first := Facade.stopRecording mimeType flushed1 st in
  let second := Facade.stopRecording mimeType flushed2 (fst first) in
  snd first
    = Some (Recorder.newBlob (Recorder.chunks (Facade.recorder st)) mimeType) /\
  audioUrl (Facade.urls (fst first)) = Some (nextUrl (Facade.urls st)) /\
  snd second = None /\
  Facade.recorded (fst second) = None /\
  recordedBlob (Facade.urls (fst second)) = None /\
  audioUrl (Facade.urls (fst second)) = None /\
  registry (Facade.urls (fst second))
    = RevokeObjectURL (nextUrl (Facade.urls st))
        :: CreateObjectURL (nextUrl (Facade.urls st))
        :: revokePrevious (Facade.urls st).
Proof.
  intros Hidle Hfresh first second.
  assert (Hsame : sameBlob (Some (Facade.nextBlob st))
                           (recordedBlob (Facade.urls st)) = false).
  { unfold sameBlob. destruct (recordedBlob (Facade.urls st)) as [b|];
      [|reflexivity].
    apply Nat.eqb_neq. congruence. }
  destruct (stopAndSettle_active mimeType flushed1 _ Hidle)
    as (rec1 & Hstop1 & Hidle1).
  assert (Hfirst : first =
            (Facade.mkState rec1
               (setRecordedBlob (Some (Facade.nextBlob st)) (Facade.urls st))
               (Some (Recorder.newBlob (Recorder.chunks (Facade.recorder st))
                                       mimeType))
               (S (Facade.nextBlob st)),
             Some (Recorder.newBlob (Recorder.chunks (Facade.recorder st))
                                    mimeType))).
  { subst first. unfold Facade.stopRecording. rewrite Hstop1. reflexivity. }
  assert (Hsecond : second =
            (Facade.mkState rec1
               (setRecordedBlob None
                  (setRecordedBlob (Some (Facade.nextBlob st)) (Facade.urls st)))
               None (S (Facade.nextBlob st)),
             None)).
  { subst second. rewrite Hfirst. unfold Facade.stopRecording.
    cbn [fst Facade.recorder Facade.urls Facade.nextBlob].
    rewrite (stopAndSettle_idle mimeType flushed2 rec1 Hidle1). reflexivity. }
  rewrite Hfirst, Hsecond. clear Hfirst Hsecond first second.
  cbn [fst snd Facade.urls Facade.recorded].
  assert (Hurls : setRecordedBlob (Some (Facade.nextBlob st)) (Facade.urls st)
                  = mkUrls (Some (Facade.nextBlob st))
                           (Some (nextUrl (Facade.urls st)))
                           (Some (nextUrl (Facade.urls st)))
                           (S (nextUrl (Facade.urls st)))
                           (CreateObjectURL (nextUrl (Facade.urls st))
                              :: revokePrevious (Facade.urls st))).
  { unfold setRecordedBlob. rewrite Hsame. reflexivity. }
  rewrite Hurls.
  repeat split; reflexivity.
Qed.

Lemma second_stopRecording_discards_recording_witness :
  let c1 := Recorder.mkBlob [26; 69]%Z "audio/webm" in
  let st := Facade.mkState (RecorderSpec.recordingWith c1) mounted None 0 in
  Recorder.idle (Facade.recorder st) = false /\
  recordedBlob (Facade.urls st) <> Some (Facade.nextBlob st) /\
  snd (Facade.stopRecording "audio/webm" c1
         (fst (Facade.stopRecording "audio/webm" c1 st))) = None.
Proof.
  cbv zeta.
  assert (Hfresh : recordedBlob mounted <> Some 0) by discriminate.
  split; [reflexivity|]. split; [exact Hfresh|].
  exact (proj1 (proj2 (proj2
    (second_stopRecording_discards_recording "audio/webm"
       (Recorder.mkBlob [26; 69]%Z "audio/webm")
       (Recorder.mkBlob [26; 69]%Z "audio/webm")
       (Facade.mkState
          (RecorderSpec.recordingWith (Recorder.mkBlob [26; 69]%Z "audio/webm"))
          mounted None 0)
       eq_refl Hfresh)))).
Defined.

(** With auto-play on, a recorded blob and an audio element, playback cannot
    stay paused: whatever the player state, after the user toggles
    [playPause] and the 100 ms timeout (if one was scheduled) has elapsed,
    the player is playing. *)
Theorem autoPlay_resumes_after_pause (st : AutoPlay.State) :
  Player.audioRef (AutoPlay.player st) = true ->
  AutoPlay.hasRecordedBlob st = true ->
  Player.isPlaying
    (AutoPlay.player (AutoPlay.timerFires true (AutoPlay.userPlayPause true st)))
  = true.
Proof.
  destruct st as [[playing ref elementCalls] blob timer]. cbn.
  intros -> ->.
  destruct playing, timer; reflexivity.
Qed.

Lemma autoPlay_resumes_after_pause_witness :
  let st := AutoPlay.mkState (Player.mkState true true [Player.CallPlay])
                             true false in
  Player.audioRef (AutoPlay.player st) = true /\
  AutoPlay.hasRecordedBlob st = true /\
  Player.isPlaying (AutoPlay.player (AutoPlay.userPlayPause true st)) = false /\
  Player.isPlaying
    (AutoPlay.player (AutoPlay.timerFires true (AutoPlay.userPlayPause true st)))
  = true.
Proof.
  cbv zeta. split; [reflexivity|]. split; [reflexivity|].
  split; [reflexivity|].
  exact (autoPlay_resumes_after_pause
           (AutoPlay.mkState (Player.mkState true true [Player.CallPlay])
                             true false)
           eq_refl eq_refl).
Defined.

End FacadeSpec.
